(** * The pueue task queue (pueue/daemon/queue.py)

    A shallow embedding of the [Queue] class: the task store, the
    dependency resolver [next], the snapshot persistence ([read] and
    [write]) and the lifecycle operations, followed by the properties
    stated about them. *)

From Stdlib Require Import ZArith Lia Sorted.
From stdpp Require Import gmap strings list fin_maps sorting pretty.

Local Open Scope Z_scope.

(** ** Python values

    The fragment of Python values that the queue stores in a task record or
    hands back to its caller: [None], booleans, integers, strings and lists
    of integers (the dependency list). *)

Inductive value : Type :=
  | VNone
  | VBool (b : bool)
  | VInt (z : Z)
  | VStr (s : string)
  | VList (l : list Z).

#[global] Instance value_eq_dec : EqDecision value.
Proof. solve_decision. Defined.

(** A task record is a Python dict with string keys; the queue is a dict
    from integer keys to records. *)
Abbreviation record := (gmap string value).
Abbreviation store := (gmap Z record).

(** [a == b]. The queue only compares a field with a string literal or with
    the list [[-1]]; on those comparisons Python's equality is structural. *)
Definition py_eq (a b : value) : bool := bool_decide (a = b).

(** [x in [v1, ..., vn]] *)
Definition py_in (x : value) (l : list value) : bool := existsb (py_eq x) l.

(** ** Exceptions and results *)

Inductive exn : Type :=
  | KeyError
  | TypeError
  | ValueError
  | OSError
  | PickleError.

Inductive outcome (A : Type) : Type :=
  | Ret (a : A)
  | Raise (e : exn).
Arguments Ret {A} a.
Arguments Raise {A} e.

#[global] Instance outcome_ret : MRet outcome := λ A a, Ret a.
#[global] Instance outcome_bind : MBind outcome := λ A B f m,
  match m with
  | Ret a => f a
  | Raise e => Raise e
  end.

(** [d[f]] on a record: [KeyError] when the field is missing. *)
Definition getitem (r : record) (f : string) : outcome value :=
  match r !! f with
  | Some v => Ret v
  | None => Raise KeyError
  end.

(** [self.queue[key]] *)
Definition queue_getitem (q : store) (key : Z) : outcome record :=
  match q !! key with
  | Some r => Ret r
  | None => Raise KeyError
  end.

(** [for x in v]: the elements a [for] loop visits. A string yields its
    one-character substrings; [None], booleans and integers are not
    iterable. *)
Fixpoint chars (s : string) : list value :=
  match s with
  | EmptyString => []
  | String c s' => VStr (String c EmptyString) :: chars s'
  end.

Definition py_iter (v : value) : outcome (list value) :=
  match v with
  | VList l => Ret (VInt <$> l)
  | VStr s => Ret (chars s)
  | _ => Raise TypeError
  end.

(** [d_key in self.queue.keys()]: gives the record when the key is there.
    The keys of the store are integers, so no string is one. *)
Definition key_lookup (q : store) (d_key : value) : option record :=
  match d_key with
  | VInt z => q !! z
  | _ => None
  end.

(** ** The dependency resolver *)

(** The loop of [_depd_ok]:
    [for d_key in ...: if d_key in self.queue.keys(): ok = ok and ...].
    [and] does not evaluate its right operand when [ok] is already false. *)
Fixpoint depd_loop (q : store) (ds : list value) (ok : bool) : outcome bool :=
  match ds with
  | [] => Ret ok
  | d_key :: ds' =>
      match key_lookup q d_key with
      | Some rd =>
          if ok then
            st ← getitem rd "status";
            depd_loop q ds' (py_eq st (VStr "done"))
          else depd_loop q ds' false
      | None => depd_loop q ds' ok
      end
  end.

Definition sentinel : value := VList [-1].

Definition _depd_ok (q : store) (key : Z) : outcome bool :=
  r ← queue_getitem q key;
  match r !! "depd" with
  | None => Ret true
  | Some d =>
      if py_eq d sentinel then Ret true
      else ds ← py_iter d; depd_loop q ds true
  end.

(** The body of the loop of [next]; [smallest] is [None] or a key. *)
Definition next_body (q : store) (smallest : option Z) (key : Z)
  : outcome (option Z) :=
  r ← queue_getitem q key;
  st ← getitem r "status";
  if py_eq st (VStr "queued") then
    ok ← _depd_ok q key;
    if (ok : bool) then
      match smallest with
      | None => Ret (Some key)
      | Some s => if bool_decide (key < s) then Ret (Some key) else Ret smallest
      end
    else Ret smallest
  else Ret smallest.

Fixpoint next_loop (q : store) (keys : list Z) (smallest : option Z)
  : outcome (option Z) :=
  match keys with
  | [] => Ret smallest
  | key :: keys' =>
      smallest' ← next_body q smallest key;
      next_loop q keys' smallest'
  end.

Definition opt_key (o : option Z) : value :=
  match o with
  | Some k => VInt k
  | None => VNone
  end.

(** [self.queue.keys()]. Python visits the keys in insertion order, the
    model in the order of [map_to_list]; the value a loop computes when no
    exception is raised does not depend on that order. *)
Definition keys (q : store) : list Z := (map_to_list q).*1.

Definition next_of (q : store) : outcome value :=
  smallest ← next_loop q (keys q) None;
  Ret (opt_key smallest).

(** ** The queue object and its environment

    [queue] and [next_key] are the attributes of the [Queue] object. The
    other fields are the part of the outside world the class touches: the
    snapshot file [<config_dir>/queue], what [print] has written, and
    whether an attempt to open the file for writing, to pickle into it, or
    to remove it, fails. *)

Inductive file : Type :=
  | Pickled (q : store)               (* a complete pickle of the dict [q] *)
  | Corrupt (bytes : list Byte.byte)  (* bytes that [pickle.load] rejects *)
  | Unreadable.                       (* [open(queue_path, 'rb')] raises *)

Record State : Type := mkState {
  queue : store;
  next_key : Z;
  snapshot : option file;            (* [None]: the file does not exist *)
  open_fails : bool;                 (* [open(queue_path, 'wb+')] raises *)
  dump_fails : option (list Byte.byte);
                                     (* [pickle.dump] raises, these bytes
                                        are what it leaves in the file *)
  console : list string;
  remove_fails : bool                (* [os.remove(queue_path)] raises *)
}.

Definition with_queue (q : store) (s : State) : State :=
  mkState q (next_key s) (snapshot s) (open_fails s) (dump_fails s) (console s)
    (remove_fails s).
Definition with_next_key (k : Z) (s : State) : State :=
  mkState (queue s) k (snapshot s) (open_fails s) (dump_fails s) (console s)
    (remove_fails s).
Definition with_snapshot (f : option file) (s : State) : State :=
  mkState (queue s) (next_key s) f (open_fails s) (dump_fails s) (console s)
    (remove_fails s).
Definition with_console (c : list string) (s : State) : State :=
  mkState (queue s) (next_key s) (snapshot s) (open_fails s) (dump_fails s) c
    (remove_fails s).

(** A method is a function of the state that returns or raises, and leaves
    a state behind in either case. *)
Definition M (A : Type) : Type := State → outcome A * State.

#[global] Instance M_ret : MRet M := λ A a s, (Ret a, s).
#[global] Instance M_bind : MBind M := λ A B f m s,
  match m s with
  | (Ret a, s') => f a s'
  | (Raise e, s') => (Raise e, s')
  end.

Definition lift {A} (o : outcome A) : M A := λ s, (o, s).
Definition gets {A} (f : State → A) : M A := λ s, (Ret (f s), s).
Definition modify (f : State → State) : M unit := λ s, (Ret (), f s).

(** [try: body except Exception: handler] *)
Definition try_except {A} (body handler : M A) : M A := λ s,
  match body s with
  | (Ret a, s') => (Ret a, s')
  | (Raise _, s') => handler s'
  end.

Fixpoint for_each {A} (l : list A) (body : A → M unit) : M unit :=
  match l with
  | [] => mret ()
  | x :: l' => body x;; for_each l' body
  end.

Definition print (line : string) : M unit :=
  modify (λ s, with_console (console s ++ [line]) s).

(** [self.queue = q] *)
Definition set_queue (q : store) : M unit := modify (with_queue q).

(** [self.queue[key][f] = v] *)
Definition set_field (key : Z) (f : string) (v : value) : M unit :=
  q ← gets queue;
  r ← lift (queue_getitem q key);
  set_queue (<[key := <[f := v]> r]> q).

(** [item[f] = v] for the record [item] that sits under [key]: the dict is
    changed in place. *)
Definition item_set (key : Z) (f : string) (v : value) : M unit :=
  modify (λ s, with_queue (alter (<[f := v]>) key (queue s)) s).

(** ** Persistence *)

(** [os.path.exists(queue_path)] *)
Definition path_exists : M bool :=
  gets (λ s, bool_decide (is_Some (snapshot s))).

(** [open(queue_path, 'rb')] *)
Definition open_rb : M unit := λ s,
  match snapshot s with
  | Some Unreadable | None => (Raise OSError, s)
  | Some _ => (Ret (), s)
  end.

(** [os.remove(queue_path)] *)
Definition os_remove : M unit := λ s,
  if remove_fails s then (Raise OSError, s)
  else
    match snapshot s with
    | Some _ => (Ret (), with_snapshot None s)
    | None => (Raise OSError, s)
    end.

(** [pickle.load(queue_file)] *)
Definition pickle_load : M store := λ s,
  match snapshot s with
  | Some (Pickled q) => (Ret q, s)
  | _ => (Raise PickleError, s)
  end.

(** [open(queue_path, 'wb+')]: creates or truncates the file. *)
Definition open_wb : M unit := λ s,
  if open_fails s then (Raise OSError, s)
  else (Ret (), with_snapshot (Some (Corrupt [])) s).

(** [pickle.dump(q, queue_file, -1)] *)
Definition pickle_dump (q : store) : M unit := λ s,
  match dump_fails s with
  | Some written =>
      (Raise PickleError, with_snapshot (Some (Corrupt written)) s)
  | None => (Ret (), with_snapshot (Some (Pickled q)) s)
  end.

(** [read]. [open] comes before the [try], and [os.remove] sits in the
    handler: what either raises leaves [read]. [queue_file.close()] has no
    effect on the state. *)
Definition read : M value :=
  ex ← path_exists;
  if (ex : bool) then
    open_rb;;
    try_except
      (q ← pickle_load; set_queue q)
      (print "Queue file corrupted, deleting old queue";;
       os_remove;;
       set_queue ∅);;
    mret VNone
  else
    set_queue ∅;;
    mret VNone.

(** [write]. [open] comes before the [try]: only what [pickle.dump] raises
    is caught. *)
Definition write : M value :=
  open_wb;;
  q ← gets queue;
  try_except
    (pickle_dump q)
    (print "Error while writing to queue file. Wrong file permissions?");;
  mret VNone.

(** ** Lifecycle operations *)

Definition reset : M value :=
  set_queue ∅;;
  modify (with_next_key 0);;
  write;;
  mret VNone.

Definition in_flight : list value :=
  [VStr "paused"; VStr "running"; VStr "stopping"; VStr "killing"].

Definition clean_body (kv : Z * record) : M unit :=
  st ← lift (getitem kv.2 "status");
  if py_in st in_flight then
    item_set kv.1 "status" (VStr "queued");;
    item_set kv.1 "start" (VStr "");;
    item_set kv.1 "end" (VStr "")
  else mret ().

Definition clean : M value :=
  items ← gets (λ s, map_to_list (queue s));
  for_each items clean_body;;
  mret VNone.

Definition finished : list value := [VStr "done"; VStr "failed"].

Definition clear_body (key : Z) : M unit :=
  q ← gets queue;
  r ← lift (queue_getitem q key);
  st ← lift (getitem r "status");
  if py_in st finished then set_queue (delete key q) else mret ().

Definition clear : M value :=
  ks ← gets (λ s, keys (queue s));
  for_each ks clear_body;;
  write;;
  mret VNone.

Definition next : M value :=
  q ← gets queue;
  lift (next_of q).

(** [add_new]. The caller's dict [command] becomes the record itself and
    the seven fields are written into it; the model takes the dict by
    value. The method has no [return]: it gives [None]. *)
Definition add_new (command : record) : M value :=
  k ← gets next_key; q ← gets queue; set_queue (<[k := command]> q);;
  k ← gets next_key; set_field k "status" (VStr "stashed");;
  k ← gets next_key; set_field k "returncode" (VStr "");;
  k ← gets next_key; set_field k "stdout" (VStr "");;
  k ← gets next_key; set_field k "stderr" (VStr "");;
  k ← gets next_key; set_field k "start" (VStr "");;
  k ← gets next_key; set_field k "end" (VStr "");;
  k ← gets next_key; set_field k "depd" sentinel;;
  modify (λ s, with_next_key (next_key s + 1) s);;
  write;;
  mret VNone.

Definition remove (key : Z) : M value :=
  q ← gets queue;
  if bool_decide (is_Some (q !! key)) then
    set_queue (delete key q);;
    write;;
    mret (VBool true)
  else mret (VBool false).

Definition restart (key : Z) : M value :=
  q ← gets queue;
  if bool_decide (is_Some (q !! key)) then
    r ← lift (queue_getitem q key);
    st ← lift (getitem r "status");
    if py_in st [VStr "failed"; VStr "done"] then
      c ← lift (getitem r "command");
      p ← lift (getitem r "path");
      add_new {[ "command" := c; "path" := p ]};;
      write;;
      mret (VBool true)
    else mret (VBool false)
  else mret (VBool false).

(** [a and b]: [b] is only looked at when [a] is true. *)
Definition py_and (a b : outcome bool) : outcome bool :=
  x ← a; if (x : bool) then b else Ret false.

Definition allowed_states : list value := [VStr "queued"; VStr "stashed"].

Definition status_allowed (q : store) (key : Z) : outcome bool :=
  r ← queue_getitem q key;
  st ← getitem r "status";
  Ret (py_in st allowed_states).

Definition switch (first second : Z) : M value :=
  q ← gets queue;
  c ← lift (py_and (Ret (bool_decide (is_Some (q !! first))))
           (py_and (Ret (bool_decide (is_Some (q !! second))))
           (py_and (status_allowed q first) (status_allowed q second))));
  if (c : bool) then
    tmp ← lift (queue_getitem q second);
    r1 ← lift (queue_getitem q first);
    set_queue (<[second := r1]> q);;
    q' ← gets queue;
    set_queue (<[first := tmp]> q');;
    write;;
    mret (VBool true)
  else mret (VBool false).

(** [max(l)] *)
Definition py_max (l : list Z) : outcome Z :=
  match l with
  | [] => Raise ValueError
  | x :: l' => Ret (foldl Z.max x l')
  end.

Definition __init__ : M value :=
  read;;
  clean;;
  q ← gets queue;
  (if bool_decide (0 < size q)%nat then
     m ← lift (py_max (keys q));
     modify (with_next_key (m + 1))
   else modify (with_next_key 0));;
  mret VNone.

(** ** Requests to the queue

    The operations a caller of the queue can ask for, and a run of such
    requests; a request that raises leaves its state to the next one. *)

Inductive op : Type :=
  | OpAdd (command : record)
  | OpRemove (key : Z)
  | OpRestart (key : Z)
  | OpSwitch (first second : Z)
  | OpClear
  | OpReset
  | OpClean
  | OpNext.

Definition run_op (o : op) : M value :=
  match o with
  | OpAdd command => add_new command
  | OpRemove key => remove key
  | OpRestart key => restart key
  | OpSwitch first second => switch first second
  | OpClear => clear
  | OpReset => reset
  | OpClean => clean
  | OpNext => next
  end.

Definition run (ops : list op) (s : State) : State :=
  foldl (λ s o, (run_op o s).2) s ops.

(** The keys under which the [add_new] calls of a run of additions and
    removals store their commands, in the order of the calls. *)
Inductive request : Type :=
  | ReqAdd (command : record)
  | ReqRemove (key : Z).

Fixpoint assigned_keys (reqs : list request) (s : State) : list Z :=
  match reqs with
  | [] => []
  | ReqAdd command :: rest =>
      next_key s :: assigned_keys rest (add_new command s).2
  | ReqRemove key :: rest => assigned_keys rest (remove key s).2
  end.

(** ** Vocabulary of the specification *)

(** Every record has a [status] field. *)
Definition has_status (r : record) : Prop := is_Some (r !! "status").

Definition all_have_status (q : store) : Prop :=
  ∀ k r, q !! k = Some r → has_status r.

(** The dependency field, when there is one, is a list (or a string):
    something a [for] loop can walk over. *)
Definition depd_iterable (r : record) : Prop :=
  match r !! "depd" with
  | None | Some (VList _) | Some (VStr _) => True
  | Some _ => False
  end.

(** What [next] needs of a store: a status in every record, and in every
    queued record dependencies that can be walked over. *)
Definition well_formed (q : store) : Prop :=
  ∀ k r, q !! k = Some r →
         has_status r ∧
         (r !! "status" = Some (VStr "queued") → depd_iterable r).

(** The dependency keys of a record: the elements of its dependency list. *)
Definition depd_keys (r : record) : list Z :=
  match r !! "depd" with
  | Some (VList l) => l
  | _ => []
  end.

(** The dependencies of [r] are the sentinel, or each of them that is still
    in the store is done. *)
Definition deps_satisfied (q : store) (r : record) : Prop :=
  r !! "depd" = Some sentinel ∨
  ∀ d rd, d ∈ depd_keys r → q !! d = Some rd →
          rd !! "status" = Some (VStr "done").

Definition eligible (q : store) (k : Z) : Prop :=
  ∃ r, q !! k = Some r ∧ r !! "status" = Some (VStr "queued") ∧
       deps_satisfied q r.

(** A record without a dependency field gets the sentinel. *)
Definition fill_depd (r : record) : record :=
  match r !! "depd" with
  | None => <["depd" := sentinel]> r
  | Some _ => r
  end.

(** The record [add_new] makes of the caller's dict. *)
Definition new_entry (command : record) : record :=
  <["depd" := sentinel]>
    (<["end" := VStr ""]>
       (<["start" := VStr ""]>
          (<["stderr" := VStr ""]>
             (<["stdout" := VStr ""]>
                (<["returncode" := VStr ""]>
                   (<["status" := VStr "stashed"]> command)))))).


(** What the specification says [clean] does to one record. *)
Definition requeue (r : record) : record :=
  <["end" := VStr ""]>
    (<["start" := VStr ""]> (<["status" := VStr "queued"]> r)).

Definition was_in_flight (r : record) : bool :=
  match r !! "status" with
  | Some st => py_in st in_flight
  | None => false
  end.

Definition cleaned (r : record) : record :=
  if was_in_flight r then requeue r else r.

(** The record under [key], if there is one, has a [status] field. *)
Definition has_status_at (q : store) (key : Z) : Prop :=
  ∀ r, q !! key = Some r → has_status r.

(** Every key of the store is below the allocator. *)
Definition keys_below (s : State) : Prop :=
  ∀ k, is_Some (queue s !! k) → k < next_key s.

Definition status_among (q : store) (key : Z) (sts : list value) : Prop :=
  ∃ r st, q !! key = Some r ∧ r !! "status" = Some st ∧ st ∈ sts.

Definition restartable (q : store) (key : Z) : Prop :=
  status_among q key [VStr "done"; VStr "failed"].

Definition switchable (q : store) (first second : Z) : Prop :=
  status_among q first allowed_states ∧ status_among q second allowed_states.

(** ** Auxiliary definitions *)

(** Whether the dependency [d] lets the task run: it is gone, or done. *)
Definition dep_done (q : store) (d : value) : bool :=
  match key_lookup q d with
  | Some rd => bool_decide (rd !! "status" = Some (VStr "done"))
  | None => true
  end.

(** What the loop of [next] keeps when it meets an eligible [key]. *)
Definition pick (smallest : option Z) (key : Z) : option Z :=
  match smallest with
  | None => Some key
  | Some s => Some (Z.min key s)
  end.

(** The state a [write] leaves when the file could be opened. *)
Definition after_write (s : State) : State :=
  match dump_fails s with
  | None => with_snapshot (Some (Pickled (queue s))) s
  | Some written =>
      with_console
        (console s ++
         ["Error while writing to queue file. Wrong file permissions?"])
        (with_snapshot (Some (Corrupt written)) s)
  end.

(** The object after [add_new], before it is written out. *)
Definition added (command : record) (s : State) : State :=
  with_next_key (next_key s + 1)
    (with_queue (<[next_key s := new_entry command]> (queue s)) s).

(** The result of a method whose last steps are [m] and [return v]. *)
Definition returning (v : value) (r : outcome value * State)
  : outcome value * State :=
  (match r.1 with Ret _ => Ret v | Raise e => Raise e end, r.2).

(** One turn of the loop of [clean], as a change of the store. *)
Definition clean_step (m : store) (kv : Z * record) : store :=
  if was_in_flight kv.2 then alter requeue kv.1 m else m.

(** [s'] differs from [s] in the store at most: same allocator, same
    snapshot file, same output. *)
Definition same_outside (s s' : State) : Prop :=
  next_key s' = next_key s ∧ snapshot s' = snapshot s ∧
  console s' = console s.

(** [s'] has the allocator of [s] and no key that [s] has not. *)
Definition shrinks (s s' : State) : Prop :=
  next_key s' = next_key s ∧
  ∀ k, is_Some (queue s' !! k) → is_Some (queue s !! k).

(** [s'] is [s] with, at most, one more key: the one the allocator of [s]
    pointed at, the allocator being moved past it. *)
Definition grows (s s' : State) : Prop :=
  shrinks s s' ∨
  (next_key s' = next_key s + 1 ∧
   ∀ k, is_Some (queue s' !! k) → is_Some (queue s !! k) ∨ k = next_key s).

(** The end of [__init__]: the computation of [next_key]. *)
Definition init_next_key : M value :=
  q ← gets queue;
  (if bool_decide (0 < size q)%nat then
     m ← lift (py_max (keys q));
     modify (with_next_key (m + 1))
   else modify (with_next_key 0));;
  mret VNone.

#[global] Instance depd_iterable_dec r : Decision (depd_iterable r).
Proof.
  unfold depd_iterable. destruct (r !! "depd") as [[]|]; apply _.
Defined.

#[global] Instance well_formed_dec q : Decision (well_formed q).
Proof.
  apply (map_Forall_dec
           (λ _ r, has_status r ∧
                   (r !! "status" = Some (VStr "queued") → depd_iterable r))).
Defined.

#[global] Instance all_have_status_dec q : Decision (all_have_status q).
Proof.
  apply (map_Forall_dec (λ _ r, has_status r)).
Defined.

(** ** Example states *)

(** No snapshot file, nothing in the store. *)
Definition empty_state : State := mkState ∅ 0 None false None [] false.

Definition task (command path : string) : record :=
  {[ "command" := VStr command; "path" := VStr path ]}.

Definition entry (status : string) (depd : list Z) : record :=
  {[ "command" := VStr "true"; "path" := VStr "/"; "status" := VStr status;
     "depd" := VList depd ]}.

(** Task [0] has no dependency, task [1] waits for task [0]. *)
Definition two_tasks : State :=
  mkState {[ 0 := entry "queued" [-1]; 1 := entry "queued" [0] ]}
          2 None false None [] false.

Definition one_done : State :=
  mkState {[ 0 := entry "done" [-1] ]} 1 None false None [] false.

(** A snapshot file that does not unpickle, and one that does. *)
Definition corrupt_snapshot : State :=
  mkState ∅ 0 (Some (Corrupt [Byte.x00; Byte.xff])) false None [] false.

Definition saved_snapshot : State :=
  mkState ∅ 0 (Some (Pickled (queue two_tasks))) false None [] false.

(** A snapshot file that does not unpickle, in a directory that does not
    let it be removed; and a snapshot file that cannot be opened for
    reading. *)
Definition undeletable : State :=
  mkState ∅ 0 (Some (Corrupt [Byte.x00; Byte.xff])) false None [] true.

Definition unreadable : State :=
  mkState ∅ 0 (Some Unreadable) false None [] false.

(** A store whose snapshot file cannot be opened for writing. *)
Definition unwritable : State :=
  mkState {[ 0 := entry "queued" [-1] ]} 1 None true None [] false.

(** A store left behind by a daemon that died while task [0] was running. *)
Definition crashed : State :=
  mkState {[ 0 := <["start" := VStr "12:00"]> (entry "running" [-1]);
             1 := entry "done" [-1] ]} 2 None false None [] false.

(** A queued task whose record was written before dependencies existed. *)
Definition legacy : State :=
  mkState {[ 3 := {[ "command" := VStr "make"; "path" := VStr "/src";
                     "status" := VStr "queued" ]};
             5 := entry "queued" [-1] ]} 6 None false None [] false.

(** The empty store after one addition, and after a reset on top of it. *)
Definition once_added : State :=
  run [OpAdd (task "echo hi" "/tmp")] empty_state.

Definition then_reset : State :=
  run [OpAdd (task "echo hi" "/tmp"); OpReset] empty_state.

(** ** Accessors

    The dict-like methods of the queue. They work on the store in memory
    only: none of them writes the snapshot. *)

(** [len(self.queue)] *)
Definition __len__ : M value :=
  q ← gets queue;
  mret (VInt (Z.of_nat (size q))).

(** [self.queue[key]] *)
Definition __getitem__ (key : Z) : M record :=
  q ← gets queue;
  lift (queue_getitem q key).

(** [self.queue[key] = value] *)
Definition __setitem__ (key : Z) (v : record) : M value :=
  q ← gets queue;
  set_queue (<[key := v]> q);;
  mret VNone.

(** [del self.queue[key]]: [KeyError] when the key is not there. *)
Definition __delitem__ (key : Z) : M value :=
  q ← gets queue;
  lift (queue_getitem q key);;
  set_queue (delete key q);;
  mret VNone.

(** [self.queue.items()] *)
Definition items : M (list (Z * record)) :=
  gets (λ s, map_to_list (queue s)).

(** [self.queue.get(key)]: the record, or [None]. *)
Definition get (key : Z) : M (option record) :=
  gets (λ s, queue s !! key).

(** The snapshot file holds the store that is in memory. *)
Definition in_sync (s : State) : Prop :=
  snapshot s = Some (Pickled (queue s)).

(** The snapshot file can be written: neither [open] nor [pickle.dump]
    fails. *)
Definition writable (s : State) : Prop :=
  open_fails s = false ∧ dump_fails s = None.

(** A record is finished: its status is [done] or [failed]. *)
Definition is_finished (r : record) : bool :=
  match r !! "status" with
  | Some st => py_in st finished
  | None => false
  end.

(** What [clear] keeps. *)
Definition unfinished (q : store) : store :=
  filter (λ kv, is_finished kv.2 = false) q.

(** One turn of the loop of [clear], as a change of the store. *)
Definition clear_step (m : store) (key : Z) : store :=
  match m !! key with
  | Some r => if is_finished r then delete key m else m
  | None => m
  end.

(** No record of the store names [key] among its dependencies. *)
Definition not_depended_on (q : store) (key : Z) : Prop :=
  ∀ k r, q !! k = Some r → key ∉ depd_keys r.

(** Task [1] waits for task [0], which is running. *)
Definition blocked : State :=
  mkState {[ 0 := entry "running" [-1]; 1 := entry "queued" [0] ]}
          2 None false None [] false.

(** Task [1] waits for task [0], which has failed. *)
Definition blocked_by_failure : State :=
  mkState {[ 0 := entry "failed" [-1]; 1 := entry "queued" [0] ]}
          2 None false None [] false.

(** Task [0] is done, task [1] has failed, task [2] is queued. *)
Definition mixed : State :=
  mkState {[ 0 := entry "done" [-1]; 1 := entry "failed" [-1];
             2 := entry "queued" [-1] ]} 3 None false None [] false.

#[global] Instance not_depended_on_dec q key : Decision (not_depended_on q key).
Proof.
  apply (map_Forall_dec (λ _ r, key ∉ depd_keys r)).
Defined.

(** Task [0] names key [1], which does not exist yet, as a dependency. *)
Definition waits_for_future : State :=
  mkState {[ 0 := entry "queued" [1] ]} 1 None false None [] false.

(** Keys [0] and [1] were handed out, key [1] has been removed again. *)
Definition top_removed : State :=
  mkState {[ 0 := entry "queued" [-1] ]} 2 None false None [] false.

(** A snapshot one of whose records has no status. *)
Definition broken_snapshot : State :=
  mkState ∅ 0 (Some (Pickled {[ 0 := task "ls" "/" ]})) false None [] false.

(** A store whose snapshot file opens, while [pickle.dump] raises after it
    has written one byte. *)
Definition dump_failing : State :=
  mkState {[ 0 := entry "queued" [-1] ]} 1 None false (Some [Byte.x80]) []
          false.

(** * The client's display (pueue/client/displaying.py)

    Three pieces of the display code work on plain data and are embedded
    here: the rows of the status table and their fitting to the terminal
    in [execute_status], and the choice of the process to show in
    [execute_show]. What they are surrounded by (the request to the daemon,
    the table and colour libraries, curses) is outside the embedding; its
    results are arguments. *)

(** [reduce(lambda a, b: a+b, l)]: a [TypeError] on the empty list. *)
Definition reduce_add (l : list Z) : option Z :=
  match l with
  | [] => None
  | x :: l' => Some (foldl Z.add x l')
  end.

(** [math.floor(x / 2)] for an integer [x]. [x / 2] is a float: the
    quotient rounded to the nearest number with a significand of 53 bits,
    ties going to the even significand. Up to 53 bits of [x] nothing is
    lost and the floor is that of the quotient. Beyond, [d] bits are
    dropped and the rounded quotient is an integer already. [None] is the
    [OverflowError] of a quotient too large for a float. *)
Definition floor_half (x : Z) : option Z :=
  let a := Z.abs x in
  let d := Z.log2 a + 1 - 53 in
  if bool_decide (d ≤ 0) then Some (x `div` 2)
  else
    let q := a `div` 2 ^ d in
    let r := a `mod` 2 ^ d in
    let h := 2 ^ (d - 1) in
    let m :=
      if bool_decide (r < h) then q
      else if bool_decide (h < r) then q + 1
      else if Z.even q then q else q + 1 in
    let res := m * 2 ^ (d - 1) in
    if bool_decide (2 ^ 1024 ≤ res) then None
    else Some (Z.sgn x * res).

(** The column widths [customWidth] that [execute_status] wraps the cells
    to, from the widths of the table and the width of the terminal. [None]
    stands for an exception: the [TypeError] of [reduce], the [IndexError]
    of a missing column or the [OverflowError] of the division. *)
Definition fit_columns (terminal_width : Z) (column_widths : list Z)
  : option (list Z) :=
  let customWidth := column_widths in
  total ← reduce_add column_widths;
  if bool_decide (terminal_width < total + 10) then
    w0 ← customWidth !! 0%nat;
    w1 ← customWidth !! 1%nat;
    w2 ← customWidth !! 2%nat;
    w5 ← customWidth !! 5%nat;
    w6 ← customWidth !! 6%nat;
    left_space ← floor_half (terminal_width - w0 - w1 - w2 - w5 - w6 - 14);
    w3 ← customWidth !! 3%nat;
    if bool_decide (w3 < left_space) then
      Some (<[4%nat := 2 * left_space - w3]> customWidth)
    else
      w4 ← customWidth !! 4%nat;
      if bool_decide (w4 < left_space) then
        Some (<[3%nat := 2 * left_space - w4]> customWidth)
      else
        Some (<[4%nat := left_space]> (<[3%nat := left_space]> customWidth))
  else Some customWidth.

(** The [data] of the daemon's answer to a status request: a message, or
    the queue. *)
Inductive status_data : Type :=
  | DataStr (message : string)
  | DataDict (q : store).

(** The loop [for k in sorted(...): if ...[k]['status'] == 'running':
    key = k; break] of [execute_show]. *)
Fixpoint first_running (q : store) (ks : list Z) : outcome (option Z) :=
  match ks with
  | [] => Ret None
  | k :: ks' =>
      r ← queue_getitem q k;
      st ← getitem r "status";
      if py_eq st (VStr "running") then Ret (Some k)
      else first_running q ks'
  end.

(** [sorted(q.keys())] *)
Definition sorted_keys (q : store) : list Z := merge_sort Z.le (keys q).

(** [execute_show] without a key: the oldest running process. *)
Definition show_oldest (data : status_data)
  : list string * outcome (option Z) :=
  match data with
  | DataStr message => ([message], Ret None)
  | DataDict q =>
      match first_running q (sorted_keys q) with
      | Raise e => ([], Raise e)
      | Ret (Some k) => ([], Ret (Some k))
      | Ret None =>
          (["No running process, use `log` to show finished processes."],
           Ret None)
      end
  end.

(** [execute_show] with a key. With a message for data, [key not in data]
    is a [TypeError]. *)
Definition show_given (key : Z) (data : status_data)
  : list string * outcome (option Z) :=
  match data with
  | DataStr _ => ([], Raise TypeError)
  | DataDict q =>
      match q !! key with
      | None =>
          (["No running process with this key, use `log` to show finished processes."],
           Ret None)
      | Some r =>
          match getitem r "status" with
          | Raise e => ([], Raise e)
          | Ret st =>
              if py_eq st (VStr "running") then ([], Ret (Some key))
              else
                (["No running process with this key, use `log` to show finished processes."],
                 Ret None)
          end
      end
  end.

(** The choice of the process to show, the first part of [execute_show]:
    what is printed, and the key the function goes on with, or [None] when
    it returns at once. [arg_key] is [args.get('key')]; for Python's [if]
    a key of [0] is as false as a missing one. *)
Definition show_select (arg_key : option Z) (data : status_data)
  : list string * outcome (option Z) :=
  match arg_key with
  | Some key =>
      if bool_decide (key ≠ 0) then show_given key data else show_oldest data
  | None => show_oldest data
  end.

(** The task under [k] is running. *)
Definition running (q : store) (k : Z) : Prop :=
  ∃ r, q !! k = Some r ∧ r !! "status" = Some (VStr "running").

(** Tasks [1] and [2] are running, task [0] is done. *)
Definition two_running : store :=
  {[ 0 := entry "done" [-1]; 1 := entry "running" [-1];
     2 := entry "running" [-1] ]}.

(** [str(v)], which is also ['{}'.format(v)]. *)
Definition py_str (v : value) : string :=
  match v with
  | VNone => "None"
  | VBool true => "True"
  | VBool false => "False"
  | VInt z => pretty z
  | VStr s => s
  | VList l => "[" +:+ String.concat ", " (pretty <$> l) +:+ "]"
  end.

(** The first row of the status table. *)
Definition table_header : list value :=
  [VStr "Index"; VStr "Status"; VStr "Code"; VStr "Command"; VStr "Path";
   VStr "Start"; VStr "End"; VStr "Depd"].

(** The row of one task: a [KeyError] when the record lacks a field. *)
Definition table_row (key : Z) (entry : record) : outcome (list value) :=
  status ← getitem entry "status";
  returncode ← getitem entry "returncode";
  command ← getitem entry "command";
  path ← getitem entry "path";
  start ← getitem entry "start";
  end_ ← getitem entry "end";
  depd ← getitem entry "depd";
  Ret [VStr ("#" +:+ pretty key); status; VStr (py_str returncode); command;
       path; start; end_; depd].

(** The order of [operator.itemgetter(0)] on the items of the queue. *)
Definition key_le (a b : Z * record) : Prop := a.1 ≤ b.1.

#[global] Instance key_le_dec : RelDecision key_le.
Proof. intros a b. unfold key_le. apply _. Defined.

#[global] Instance key_le_total : Total key_le.
Proof. intros a b. unfold key_le. lia. Qed.

#[global] Instance key_le_trans : Transitive key_le.
Proof. intros a b c. unfold key_le. lia. Qed.

(** [sorted(data.items(), key=operator.itemgetter(0))] *)
Definition sorted_items (q : store) : list (Z * record) :=
  merge_sort key_le (map_to_list q).

(** The loop that appends a row for each task to [formatted_data]. *)
Fixpoint table_rows (its : list (Z * record)) (formatted_data : list (list value))
  : outcome (list (list value)) :=
  match its with
  | [] => Ret formatted_data
  | (key, entry) :: its' =>
      row ← table_row key entry;
      table_rows its' (formatted_data ++ [row])
  end.

(** The data handed to the table library by [execute_status] when the
    daemon has answered with the queue. *)
Definition format_status (q : store) : outcome (list (list value)) :=
  table_rows (sorted_items q) [table_header].

Definition table_fields : list string :=
  ["status"; "returncode"; "command"; "path"; "start"; "end"; "depd"].

(** The record has the seven fields the table shows. *)
Definition displayable (r : record) : Prop :=
  Forall (λ f, is_Some (r !! f)) table_fields.

#[global] Instance displayable_dec r : Decision (displayable r).
Proof. unfold displayable. apply _. Defined.

(** The cell of the column [Index]. *)
Definition index_cell (key : Z) : value := VStr ("#" +:+ pretty key).

(** A task as the daemon keeps it once it has run. *)
Definition full_entry (status : string) (returncode : Z) : record :=
  {[ "command" := VStr "ls"; "path" := VStr "/tmp"; "status" := VStr status;
     "returncode" := VInt returncode; "stdout" := VStr ""; "stderr" := VStr "";
     "start" := VStr "12:00"; "end" := VStr "12:01"; "depd" := VList [-1] ]}.

(** * Properties *)

(** ** The scenarios of the specification *)

Example next_runs_task_0_first : next two_tasks = (Ret (VInt 0), two_tasks).
Proof. vm_compute. reflexivity. Qed.

Example next_runs_task_1_after_0 :
  next_of {[ 0 := entry "done" [-1]; 1 := entry "queued" [0] ]} = Ret (VInt 1).
Proof. vm_compute. reflexivity. Qed.

Example next_waits_for_running_dependency :
  next_of {[ 0 := entry "running" [-1]; 1 := entry "queued" [0] ]} = Ret VNone.
Proof. vm_compute. reflexivity. Qed.

Example next_ignores_removed_dependency :
  next_of {[ 1 := entry "queued" [0] ]} = Ret (VInt 1).
Proof. vm_compute. reflexivity. Qed.

Example add_to_empty_store :
  queue (add_new (task "echo hi" "/tmp") empty_state).2 !! 0 =
    Some (new_entry (task "echo hi" "/tmp")) ∧
  next_key (add_new (task "echo hi" "/tmp") empty_state).2 = 1.
Proof. vm_compute. split; reflexivity. Qed.

Example clear_drops_finished_tasks :
  queue (clear (mkState {[ 0 := entry "done" [-1]; 1 := entry "failed" [-1];
                           2 := entry "queued" [-1] ]} 3 None false None [] false)).2
  = {[ 2 := entry "queued" [-1] ]}.
Proof. vm_compute. reflexivity. Qed.

Example init_after_crash :
  (__init__ (mkState ∅ 0 (Some (Pickled (queue crashed))) false None [] false)).1
    = Ret VNone ∧
  next_key (__init__ (mkState ∅ 0 (Some (Pickled (queue crashed))) false None [] false)).2
    = 2.
Proof. vm_compute. split; reflexivity. Qed.

(** ** Basic facts *)

Lemma all_have_status_at q key : all_have_status q → has_status_at q key.
Proof. intros Hall r Hr. by apply (Hall key). Qed.

Lemma well_formed_status q : well_formed q → all_have_status q.
Proof. intros Hwf k r Hk. by destruct (Hwf k r Hk). Qed.

Lemma getitem_Some (r : record) f v : r !! f = Some v → getitem r f = Ret v.
Proof. unfold getitem. by intros ->. Qed.

Lemma queue_getitem_Some (q : store) k r :
  q !! k = Some r → queue_getitem q k = Ret r.
Proof. unfold queue_getitem. by intros ->. Qed.

Lemma py_eq_true a b : py_eq a b = true ↔ a = b.
Proof. unfold py_eq. apply bool_decide_eq_true. Qed.

Lemma py_eq_false a b : py_eq a b = false ↔ a ≠ b.
Proof. unfold py_eq. apply bool_decide_eq_false. Qed.

Lemma py_in_true x l : py_in x l = true ↔ x ∈ l.
Proof.
  unfold py_in. induction l as [|y l IH]; simpl.
  - rewrite elem_of_nil. split; [discriminate|done].
  - rewrite orb_true_iff, py_eq_true, IH, elem_of_cons. done.
Qed.

Lemma bind_Ret_inv {A B} (m : M A) (f : A → M B) s v s' :
  (m ≫= f) s = (Ret v, s') →
  ∃ a s1, m s = (Ret a, s1) ∧ f a s1 = (Ret v, s').
Proof.
  unfold mbind, M_bind. destruct (m s) as [[a|e] s1]; [|done].
  intros H. by exists a, s1.
Qed.

Lemma elem_of_keys (q : store) k : k ∈ keys q ↔ is_Some (q !! k).
Proof.
  unfold keys. rewrite list_elem_of_fmap. split.
  - intros [[k' r] [-> Hin]]. apply elem_of_map_to_list in Hin. by exists r.
  - intros [r Hr]. exists (k, r). split; [done|]. by apply elem_of_map_to_list.
Qed.

(** ** The resolver *)

Section resolver.
Variable q : store.
Hypothesis Hst : all_have_status q.

Lemma depd_loop_ok ds ok :
  depd_loop q ds ok = Ret (ok && forallb (dep_done q) ds).
Proof.
  revert ok. induction ds as [|d ds IH]; intros ok; simpl.
  { by rewrite andb_true_r. }
  unfold dep_done at 1.
  destruct (key_lookup q d) as [rd|] eqn:Hd.
  - destruct ok; [|by rewrite IH].
    assert (has_status rd) as [v Hv].
    { destruct d; try discriminate. by apply (Hst z). }
    rewrite (getitem_Some _ _ _ Hv). simpl. rewrite IH, Hv.
    unfold py_eq. f_equal. f_equal.
    apply bool_decide_ext. split; congruence.
  - by rewrite IH.
Qed.

Lemma dep_done_chars s : forallb (dep_done q) (chars s) = true.
Proof. induction s; simpl; auto. Qed.

Lemma dep_done_ints l :
  forallb (dep_done q) (VInt <$> l) = true ↔
  ∀ d rd, d ∈ l → q !! d = Some rd → rd !! "status" = Some (VStr "done").
Proof.
  induction l as [|x l IH]; simpl.
  { split; [|done]. intros _ d rd Hd. by apply elem_of_nil in Hd. }
  rewrite andb_true_iff, IH. unfold dep_done. simpl. split.
  - intros [Hx Hl] d rd [->|Hin]%elem_of_cons Hq; [|by eapply Hl].
    rewrite Hq in Hx. by apply bool_decide_eq_true in Hx.
  - intros H. split.
    + destruct (q !! x) as [rd|] eqn:Hq; [|done].
      apply bool_decide_eq_true. eapply H; [left|done].
    + intros d rd Hin. apply H. by right.
Qed.

Lemma depd_ok_spec k r :
  q !! k = Some r → depd_iterable r →
  ∃ b, _depd_ok q k = Ret b ∧ (b = true ↔ deps_satisfied q r).
Proof.
  intros Hk Hit. unfold _depd_ok, deps_satisfied, depd_keys.
  rewrite (queue_getitem_Some _ _ _ Hk). simpl.
  unfold depd_iterable in Hit.
  destruct (r !! "depd") as [d|] eqn:Hd.
  - destruct (py_eq d sentinel) eqn:Hs.
    { apply py_eq_true in Hs as ->. exists true. split; [done|]. by split; [left|]. }
    apply py_eq_false in Hs.
    destruct d as [| | |s|l]; try done; simpl; rewrite depd_loop_ok; simpl.
    + rewrite dep_done_chars. exists true. split; [done|]. split; [|done].
      intros _. right. intros d rd Hin. by apply elem_of_nil in Hin.
    + eexists. split; [done|]. rewrite dep_done_ints. split; [by right|].
      intros [?|?]; [congruence|done].
  - exists true. split; [done|]. split; [|done]. intros _. right.
    intros d rd Hin. by apply elem_of_nil in Hin.
Qed.
End resolver.

Section next_correct.
Variable q : store.
Hypothesis Hwf : well_formed q.

Lemma next_body_spec sm k :
  is_Some (q !! k) →
  ∃ b, (b = true ↔ eligible q k) ∧
       next_body q sm k = Ret (if b then pick sm k else sm).
Proof.
  intros [r Hk]. destruct (Hwf k r Hk) as [[st Hst] Hit].
  unfold next_body. rewrite (queue_getitem_Some _ _ _ Hk). simpl.
  rewrite (getitem_Some _ _ _ Hst). simpl.
  destruct (py_eq st (VStr "queued")) eqn:Hq.
  - apply py_eq_true in Hq as ->.
    destruct (depd_ok_spec q (well_formed_status q Hwf) k r Hk (Hit Hst))
      as (b & -> & Hb).
    simpl. exists b. split.
    + rewrite Hb. split.
      * intros Hd. by exists r.
      * intros (r' & Hr' & _ & Hd). congruence.
    + destruct b; [|done]. destruct sm as [s|]; simpl; [|done].
      case_bool_decide; f_equal; f_equal; lia.
  - apply py_eq_false in Hq. exists false. split; [|done].
    split; [done|]. intros (r' & Hr' & Hs & _). congruence.
Qed.

Lemma next_loop_spec l sm :
  (∀ k, k ∈ l → is_Some (q !! k)) →
  ∃ res, next_loop q l sm = Ret res ∧
    match res with
    | None => sm = None ∧ ∀ k, k ∈ l → ¬ eligible q k
    | Some k =>
        ((k ∈ l ∧ eligible q k) ∨ sm = Some k) ∧
        (∀ k', k' ∈ l → eligible q k' → k ≤ k') ∧
        (∀ s, sm = Some s → k ≤ s)
    end.
Proof.
  revert sm. induction l as [|x l IH]; intros sm Hl; simpl.
  { exists sm. split; [done|]. destruct sm as [s|].
    - split; [by right|]. split; [|intros ? [= ->]; lia].
      intros k' Hin. by apply elem_of_nil in Hin.
    - split; [done|]. intros k Hin. by apply elem_of_nil in Hin. }
  destruct (next_body_spec sm x) as (b & Hb & ->).
  { apply Hl. by left. }
  simpl.
  destruct (IH (if b then pick sm x else sm)) as (res & -> & Hres).
  { intros k Hin. apply Hl. by right. }
  exists res. split; [done|].
  destruct res as [k|].
  - destruct Hres as (Hk & Hmin & Hsm). split; [|split].
    + destruct Hk as [[Hin He]|Hk]; [left; split; [by right|done]|].
      destruct b; [|by right].
      destruct sm as [s|]; simpl in Hk; injection Hk as <-.
      * destruct (Z.min_spec x s) as [[_ ->]|[_ ->]]; [|by right].
        left. split; [by left|by apply Hb].
      * left. split; [by left|by apply Hb].
    + intros k' [->|Hin]%elem_of_cons He; [|by apply Hmin].
      apply Hb in He as ->. destruct sm as [s|]; simpl in Hsm.
      * specialize (Hsm _ eq_refl). lia.
      * by apply Hsm.
    + intros s ->. destruct b; [|by apply Hsm].
      simpl in Hsm. specialize (Hsm _ eq_refl). lia.
  - destruct Hres as [Hnone Hnot].
    destruct b.
    { destruct sm; discriminate. }
    split; [done|].
    intros k [->|Hin]%elem_of_cons; [|by apply Hnot].
    intros He. apply Hb in He. discriminate.
Qed.
End next_correct.

Lemma next_of_spec (q : store) :
  well_formed q →
  ∃ res, next_of q = Ret res ∧
    match res with
    | VInt k => eligible q k ∧ ∀ k', eligible q k' → k ≤ k'
    | VNone => ∀ k', ¬ eligible q k'
    | _ => False
    end.
Proof.
  intros Hwf. unfold next_of.
  destruct (next_loop_spec q Hwf (keys q) None) as (res & Hres & Hspec).
  { intros k. by rewrite elem_of_keys. }
  exists (opt_key res). split; [by rewrite Hres|].
  assert (∀ k, eligible q k → k ∈ keys q) as Hdom.
  { intros k (r & Hr & _). apply elem_of_keys. by exists r. }
  destruct res as [k|]; simpl.
  - destruct Hspec as ([[_ He]|?] & Hmin & _); [|done].
    split; [done|]. intros k' He'. apply Hmin; auto.
  - destruct Hspec as [_ Hnot]. intros k' He'. by apply (Hnot k'); auto.
Qed.

(** Conversely, [next] raises on a store that is not well formed. *)
Lemma next_body_Ret_inv q sm k r res :
  q !! k = Some r → next_body q sm k = Ret res →
  has_status r ∧ (r !! "status" = Some (VStr "queued") → depd_iterable r).
Proof.
  intros Hk. unfold next_body, _depd_ok, depd_iterable.
  rewrite (queue_getitem_Some _ _ _ Hk). cbn. unfold getitem.
  destruct (r !! "status") as [st|] eqn:Hst; [|done]. cbn.
  intros Hret. split; [by eexists|]. intros [= ->].
  rewrite (proj2 (py_eq_true _ _) eq_refl) in Hret. cbn in Hret.
  destruct (r !! "depd") as [d|]; [|done].
  destruct (py_eq d sentinel) eqn:Hs.
  { by apply py_eq_true in Hs as ->. }
  by destruct d.
Qed.

Lemma next_loop_Ret_inv q l sm res :
  next_loop q l sm = Ret res →
  ∀ k, k ∈ l → ∃ sm' res', next_body q sm' k = Ret res'.
Proof.
  revert sm. induction l as [|x l IH]; intros sm Hret k Hin.
  { by apply elem_of_nil in Hin. }
  cbn [next_loop] in Hret.
  destruct (next_body q sm x) as [sm1|e] eqn:Hx; [|done]. cbn in Hret.
  apply elem_of_cons in Hin as [->|Hin]; [by exists sm, sm1|].
  by apply (IH sm1).
Qed.

Lemma next_of_Ret_inv q res : next_of q = Ret res → well_formed q.
Proof.
  unfold next_of. intros Hret k r Hk.
  destruct (next_loop q (keys q) None) as [sm|e] eqn:Hloop; [|done].
  destruct (next_loop_Ret_inv _ _ _ _ Hloop k) as (sm' & res' & Hbody).
  { apply elem_of_keys. by exists r. }
  by apply (next_body_Ret_inv _ _ _ _ _ Hk Hbody).
Qed.

Lemma next_eq s : next s = (next_of (queue s), s).
Proof. done. Qed.

(** C1. [next] never changes the state, and it returns, rather than
    raises, exactly on the well-formed stores: those whose records all
    carry a status and whose queued records have dependencies that are
    absent or can be walked over. There it returns the smallest key whose
    record is queued and whose dependencies are the sentinel or are all,
    as far as they are still in the store, done; it returns [None] exactly
    when there is no such key. *)
Theorem next_smallest_eligible (s : State) :
  (next s).2 = s ∧
  ((∃ res, (next s).1 = Ret res) → well_formed (queue s)) ∧
  (well_formed (queue s) →
   ∃ res, next s = (Ret res, s) ∧
     match res with
     | VInt k => eligible (queue s) k ∧ ∀ k', eligible (queue s) k' → k ≤ k'
     | VNone => ∀ k', ¬ eligible (queue s) k'
     | _ => False
     end).
Proof.
  rewrite next_eq. cbn [fst snd]. split; [done|]. split.
  - intros [res Hres]. by apply (next_of_Ret_inv _ res).
  - intros Hwf. destruct (next_of_spec (queue s) Hwf) as (res & Hres & Hspec).
    exists res. split; [|done]. by rewrite Hres.
Qed.

(** On the two-task store the hypothesis of C1 holds. *)
Lemma next_smallest_eligible_witness :
  well_formed (queue two_tasks) ∧
  ∃ res, next two_tasks = (Ret res, two_tasks) ∧
    match res with
    | VInt k => eligible (queue two_tasks) k ∧
                ∀ k', eligible (queue two_tasks) k' → k ≤ k'
    | VNone => ∀ k', ¬ eligible (queue two_tasks) k'
    | _ => False
    end.
Proof.
  assert (well_formed (queue two_tasks)) as Hwf.
  { apply (bool_decide_unpack _). vm_compute. reflexivity. }
  split; [exact Hwf|].
  exact (proj2 (proj2 (next_smallest_eligible two_tasks)) Hwf).
Defined.

(** ** Persistence *)

Ltac unfold_M :=
  unfold mbind, M_bind, mret, M_ret, gets, lift, modify, set_queue, print,
    try_except.

Lemma with_queue_with_queue q q' s :
  with_queue q (with_queue q' s) = with_queue q s.
Proof. by destruct s. Qed.

Lemma with_queue_id s : with_queue (queue s) s = s.
Proof. by destruct s. Qed.

Lemma write_eq s :
  write s = if open_fails s then (Raise OSError, s) else (Ret VNone, after_write s).
Proof.
  unfold write, after_write, open_wb, pickle_dump. unfold_M.
  destruct s as [q n f o d c rf]. simpl.
  destruct o; [done|]. simpl. by destruct d.
Qed.

Lemma after_write_queue s : queue (after_write s) = queue s.
Proof. unfold after_write. by destruct (dump_fails s). Qed.

Lemma after_write_next_key s : next_key (after_write s) = next_key s.
Proof. unfold after_write. by destruct (dump_fails s). Qed.

Lemma write_queue s : queue (write s).2 = queue s.
Proof.
  rewrite write_eq. destruct (open_fails s); [done|]. apply after_write_queue.
Qed.

Lemma write_next_key s : next_key (write s).2 = next_key s.
Proof.
  rewrite write_eq. destruct (open_fails s); [done|]. apply after_write_next_key.
Qed.

Lemma returning_write_queue v s : queue (returning v (write s)).2 = queue s.
Proof. apply write_queue. Qed.

Lemma returning_write_next_key v s :
  next_key (returning v (write s)).2 = next_key s.
Proof. apply write_next_key. Qed.

Lemma returning_write_ok v s :
  open_fails s = false → returning v (write s) = (Ret v, after_write s).
Proof. intros H. unfold returning. by rewrite write_eq, H. Qed.

(** ** [add_new] and [remove] *)

Lemma add_new_eq command s :
  add_new command s = returning VNone (write (added command s)).
Proof.
  unfold add_new, added, new_entry, set_field, returning. unfold_M.
  destruct s as [q n f o d c rf]. simpl.
  unfold queue_getitem.
  repeat (progress (rewrite ?lookup_insert_eq, ?insert_insert_eq; cbn)).
  rewrite !with_queue_with_queue.
  destruct (write _) as [[]?]; done.
Qed.

Lemma add_new_queue command s :
  queue (add_new command s).2 = <[next_key s := new_entry command]> (queue s).
Proof. by rewrite add_new_eq, returning_write_queue. Qed.

Lemma add_new_next_key command s :
  next_key (add_new command s).2 = next_key s + 1.
Proof. by rewrite add_new_eq, returning_write_next_key. Qed.

Lemma remove_eq key s :
  remove key s =
  if bool_decide (is_Some (queue s !! key))
  then returning (VBool true) (write (with_queue (delete key (queue s)) s))
  else (Ret (VBool false), s).
Proof.
  unfold remove, returning. unfold_M. simpl.
  case_bool_decide; [|done].
  destruct (write _) as [[]?]; done.
Qed.

Lemma remove_next_key key s : next_key (remove key s).2 = next_key s.
Proof.
  rewrite remove_eq. case_bool_decide; [|done].
  by rewrite returning_write_next_key.
Qed.


Lemma assigned_keys_lower reqs s k :
  k ∈ assigned_keys reqs s → next_key s ≤ k.
Proof.
  revert s. induction reqs as [|[c|key] reqs IH]; intros s; simpl.
  - by intros ?%elem_of_nil.
  - intros [->|Hin]%elem_of_cons; [lia|].
    apply IH in Hin. rewrite add_new_next_key in Hin. lia.
  - intros Hin. apply IH in Hin. by rewrite remove_next_key in Hin.
Qed.

(** C2. Along any run of additions and removals, from any state, the keys
    under which the additions store their commands are strictly
    increasing, so none is handed out twice. *)
Theorem assigned_keys_increasing (reqs : list request) (s : State) :
  StronglySorted Z.lt (assigned_keys reqs s) ∧ NoDup (assigned_keys reqs s).
Proof.
  assert (StronglySorted Z.lt (assigned_keys reqs s)) as Hs.
  { revert s. induction reqs as [|[c|key] reqs IH]; intros s; simpl.
    - constructor.
    - constructor; [apply IH|].
      apply Forall_forall. intros k Hin.
      apply assigned_keys_lower in Hin. rewrite add_new_next_key in Hin. lia.
    - apply IH. }
  split; [done|].
  induction Hs as [|k l _ IH Hk]; constructor; [|done].
  intros Hin. rewrite Forall_forall in Hk. specialize (Hk _ Hin). lia.
Qed.




(** ** [restart] *)

Lemma after_write_open_fails s : open_fails (after_write s) = open_fails s.
Proof. unfold after_write. by destruct (dump_fails s). Qed.

Lemma status_among_lookup q key sts r :
  q !! key = Some r →
  status_among q key sts ↔ ∃ st, r !! "status" = Some st ∧ st ∈ sts.
Proof.
  intros Hr. split.
  - intros (r' & st & Hr' & Hst & Hin). exists st. split; congruence.
  - intros (st & Hst & Hin). by exists r, st.
Qed.

Lemma restart_eq key s :
  restart key s =
  match queue s !! key with
  | None => (Ret (VBool false), s)
  | Some r =>
      match r !! "status" with
      | None => (Raise KeyError, s)
      | Some st =>
          if py_in st [VStr "failed"; VStr "done"] then
            match r !! "command", r !! "path" with
            | Some c, Some p =>
                match add_new {[ "command" := c; "path" := p ]} s with
                | (Ret _, s') => returning (VBool true) (write s')
                | (Raise e, s') => (Raise e, s')
                end
            | _, _ => (Raise KeyError, s)
            end
          else (Ret (VBool false), s)
      end
  end.
Proof.
  unfold restart, returning, queue_getitem, getitem. unfold_M.
  cbn -[add_new write py_in].
  destruct (queue s !! key) as [r|] eqn:Hr; cbn -[add_new write py_in]; [|done].
  try (case_bool_decide as Hs; [|by destruct Hs]). cbn -[add_new write py_in].
  destruct (r !! "status") as [st|]; cbn -[add_new write py_in]; [|done].
  destruct (py_in st _); [|done].
  destruct (r !! "command") as [c|]; cbn -[add_new write py_in]; [|done].
  destruct (r !! "path") as [p|]; cbn -[add_new write py_in]; [|done].
  destruct (add_new _ s) as [[]?]; [|done].
  destruct (write _) as [[]?]; done.
Qed.

(** C4. When the record under the key, if there is one, carries a status,
    [restart] returns [False] and changes nothing unless the key is there
    with status [done] or [failed]. When it is, the record has a command
    and a path, the allocator is above every key and the snapshot can be
    opened, it returns [True], stores under the unused key [next_key] a
    record made of the command and the path alone, stashed and with the
    sentinel as dependencies, and leaves the original record as it was. *)
Theorem restart_clones_finished (key : Z) (s : State) :
  has_status_at (queue s) key →
  (¬ restartable (queue s) key → restart key s = (Ret (VBool false), s)) ∧
  ((restart key s).1 = Ret (VBool true) → restartable (queue s) key) ∧
  (∀ r c p,
     queue s !! key = Some r → restartable (queue s) key →
     r !! "command" = Some c → r !! "path" = Some p →
     keys_below s → open_fails s = false →
     let s' := (restart key s).2 in
     let clone := new_entry {[ "command" := c; "path" := p ]} in
     (restart key s).1 = Ret (VBool true) ∧
     queue s !! next_key s = None ∧
     queue s' = <[next_key s := clone]> (queue s) ∧
     queue s' !! key = Some r ∧
     next_key s' = next_key s + 1 ∧
     clone !! "status" = Some (VStr "stashed") ∧
     clone !! "depd" = Some sentinel).
Proof.
  intros Hall. rewrite restart_eq.
  destruct (queue s !! key) as [r|] eqn:Hr.
  2:{ split; [done|]. split; [done|]. intros; discriminate. }
  destruct (Hall _ Hr) as [st Hst]. rewrite Hst.
  unfold restartable. rewrite (status_among_lookup _ _ _ _ Hr).
  destruct (py_in st _) eqn:Hin.
  - apply py_in_true in Hin.
    assert (∃ st', r !! "status" = Some st' ∧ st' ∈ [VStr "done"; VStr "failed"])
      as Hre.
    { exists st. split; [done|].
      rewrite !elem_of_cons in Hin. rewrite !elem_of_cons. tauto. }
    split; [done|]. split; [done|].
    intros r' c p [= <-] _ Hc Hp Hbelow Hopen. rewrite Hc, Hp.
    rewrite add_new_eq, returning_write_ok by done.
    rewrite returning_write_ok by (by rewrite after_write_open_fails).
    simpl. rewrite !after_write_queue, !after_write_next_key. simpl.
    assert (queue s !! next_key s = None) as Hfresh.
    { destruct (queue s !! next_key s) eqn:Hn; [|done].
      assert (next_key s < next_key s) by (apply Hbelow; by eexists). lia. }
    split; [done|]. split; [done|]. split; [done|]. split.
    { rewrite lookup_insert_ne; [done|]. intros Heq. congruence. }
    done.
  - assert (¬ ∃ st', r !! "status" = Some st' ∧ st' ∈ [VStr "done"; VStr "failed"])
      as Hre.
    { intros (st' & Hst' & Hin'). rewrite Hst in Hst'. injection Hst' as <-.
      assert (py_in st [VStr "failed"; VStr "done"] = true); [|congruence].
      apply py_in_true.
      rewrite !elem_of_cons in Hin'. rewrite !elem_of_cons. tauto. }
    split; [done|]. split; [done|]. intros r' c p _ Hre'.
    exfalso. apply Hre. by apply (status_among_lookup _ _ _ _ Hr).
Qed.

Lemma keys_below_Forall s :
  map_Forall (λ k _, k < next_key s) (queue s) → keys_below s.
Proof. intros H k [r Hr]. exact (H k r Hr). Qed.

(** C4 at work: restarting the finished task [0], and a key that is
    not there. *)
Lemma restart_clones_finished_witness :
  all_have_status (queue one_done) ∧
  restartable (queue one_done) 0 ∧ ¬ restartable (queue one_done) 7 ∧
  keys_below one_done ∧
  restart 7 one_done = (Ret (VBool false), one_done) ∧
  (restart 0 one_done).1 = Ret (VBool true) ∧
  queue (restart 0 one_done).2 !! 0 = Some (entry "done" [-1]) ∧
  queue (restart 0 one_done).2 !! 1 =
    Some (new_entry {[ "command" := VStr "true"; "path" := VStr "/" ]}).
Proof.
  assert (all_have_status (queue one_done)) as Hall.
  { apply (bool_decide_unpack _). vm_compute. reflexivity. }
  assert (restartable (queue one_done) 0) as Hre.
  { exists (entry "done" [-1]), (VStr "done").
    split; [reflexivity|]. split; [reflexivity|]. apply list_elem_of_here. }
  assert (¬ restartable (queue one_done) 7) as Hnot.
  { intros (r & st & Hr & _). vm_compute in Hr. discriminate. }
  assert (keys_below one_done) as Hbelow.
  { apply keys_below_Forall, (bool_decide_unpack _). vm_compute. reflexivity. }
  destruct (restart_clones_finished 7 one_done (all_have_status_at _ 7 Hall))
    as (Hfalse & _ & _).
  destruct (restart_clones_finished 0 one_done (all_have_status_at _ 0 Hall))
    as (_ & _ & Hok).
  destruct (Hok (entry "done" [-1]) (VStr "true") (VStr "/")
              eq_refl Hre eq_refl eq_refl Hbelow eq_refl)
    as (Htrue & _ & Hq & Horig & _).
  split; [exact Hall|]. split; [exact Hre|]. split; [exact Hnot|].
  split; [exact Hbelow|]. split; [exact (Hfalse Hnot)|].
  split; [exact Htrue|]. split; [exact Horig|].
  rewrite Hq. apply lookup_insert_eq.
Defined.

(** ** [switch] *)

Lemma switch_eq first second s :
  switch first second s =
  match queue s !! first, queue s !! second with
  | Some r1, Some r2 =>
      match r1 !! "status" with
      | None => (Raise KeyError, s)
      | Some st1 =>
          if py_in st1 allowed_states then
            match r2 !! "status" with
            | None => (Raise KeyError, s)
            | Some st2 =>
                if py_in st2 allowed_states then
                  returning (VBool true)
                    (write (with_queue (<[first := r2]> (<[second := r1]> (queue s))) s))
                else (Ret (VBool false), s)
            end
          else (Ret (VBool false), s)
      end
  | _, _ => (Ret (VBool false), s)
  end.
Proof.
  unfold switch, returning, py_and, status_allowed, queue_getitem, getitem.
  unfold_M. cbn -[write py_in].
  destruct (queue s !! first) as [r1|]; cbn -[write py_in]; [|done].
  destruct (queue s !! second) as [r2|]; cbn -[write py_in]; [|done].
  destruct (r1 !! "status") as [st1|]; cbn -[write py_in]; [|done].
  destruct (py_in st1 _); cbn -[write py_in]; [|done].
  destruct (r2 !! "status") as [st2|]; cbn -[write py_in]; [|done].
  destruct (py_in st2 _); cbn -[write py_in]; [|done].
  unfold with_queue. cbn -[write].
  destruct (write _) as [[]?]; done.
Qed.

Lemma insert_swap_back (q : store) a b ra rb :
  q !! a = Some ra → q !! b = Some rb →
  <[a := ra]> (<[b := rb]> (<[a := rb]> (<[b := ra]> q))) = q.
Proof.
  intros Ha Hb. apply map_eq. intros k.
  destruct (decide (k = a)) as [->|Hka].
  { by rewrite lookup_insert_eq. }
  rewrite lookup_insert_ne by done.
  destruct (decide (k = b)) as [->|Hkb].
  { by rewrite lookup_insert_eq. }
  by rewrite !lookup_insert_ne by done.
Qed.

(** C5. When the records under the two keys, if they are there, carry a
    status, [switch] returns [False] and changes nothing unless both keys
    are there with a status among [queued] and [stashed]. When they are and
    the snapshot can be opened, it returns [True], each key now holds the
    whole record the other held and no other key changes; a second
    [switch] of the same keys succeeds as well and gives back the original
    store. *)
Theorem switch_exchanges (first second : Z) (s : State) :
  has_status_at (queue s) first → has_status_at (queue s) second →
  (¬ switchable (queue s) first second →
   switch first second s = (Ret (VBool false), s)) ∧
  ((switch first second s).1 = Ret (VBool true) →
   switchable (queue s) first second) ∧
  (∀ r1 r2,
     queue s !! first = Some r1 → queue s !! second = Some r2 →
     switchable (queue s) first second → open_fails s = false →
     let s1 := (switch first second s).2 in
     (switch first second s).1 = Ret (VBool true) ∧
     queue s1 !! first = Some r2 ∧
     queue s1 !! second = Some r1 ∧
     (∀ k, k ≠ first → k ≠ second → queue s1 !! k = queue s !! k) ∧
     (switch first second s1).1 = Ret (VBool true) ∧
     queue (switch first second s1).2 = queue s).
Proof.
  intros Hfirst Hsecond. rewrite switch_eq. unfold switchable.
  destruct (queue s !! first) as [r1|] eqn:H1.
  2:{ split; [done|]. split; [done|]. intros; discriminate. }
  destruct (queue s !! second) as [r2|] eqn:H2.
  2:{ split; [done|]. split; [done|]. intros; discriminate. }
  destruct (Hfirst _ H1) as [st1 Hst1]. destruct (Hsecond _ H2) as [st2 Hst2].
  rewrite Hst1, Hst2.
  assert (status_among (queue s) first allowed_states ↔
          py_in st1 allowed_states = true) as Ha1.
  { rewrite (status_among_lookup _ _ _ _ H1), py_in_true. split.
    - intros (st & Hst & Hin). congruence.
    - intros Hin. by exists st1. }
  assert (status_among (queue s) second allowed_states ↔
          py_in st2 allowed_states = true) as Ha2.
  { rewrite (status_among_lookup _ _ _ _ H2), py_in_true. split.
    - intros (st & Hst & Hin). congruence.
    - intros Hin. by exists st2. }
  destruct (py_in st1 allowed_states) eqn:Hp1.
  2:{ split; [done|]. split; [done|]. intros ? ? _ _ [Hs _].
      apply Ha1 in Hs. discriminate. }
  destruct (py_in st2 allowed_states) eqn:Hp2.
  2:{ split; [done|]. split; [done|]. intros ? ? _ _ [_ Hs].
      apply Ha2 in Hs. discriminate. }
  split; [intros Hn; destruct Hn; split; [by apply Ha1|by apply Ha2]|].
  split; [intros _; split; [by apply Ha1|by apply Ha2]|].
  intros r1' r2' [= <-] [= <-] _ Hopen.
  rewrite returning_write_ok by done. cbn [fst snd].
  rewrite after_write_queue. cbn [queue with_queue].
  set (q1 := <[first := r2]> (<[second := r1]> (queue s))).
  assert (q1 !! first = Some r2) as Hq1 by apply lookup_insert_eq.
  assert (q1 !! second = Some r1) as Hq2.
  { unfold q1. destruct (decide (first = second)) as [->|Hne].
    - rewrite lookup_insert_eq. congruence.
    - rewrite lookup_insert_ne by done. apply lookup_insert_eq. }
  split; [done|]. split; [done|]. split; [done|]. split.
  { intros k Hk1 Hk2. unfold q1. by rewrite !lookup_insert_ne. }
  rewrite switch_eq. rewrite after_write_queue. cbn [queue with_queue].
  rewrite Hq1, Hq2, Hst1, Hst2, Hp1, Hp2.
  rewrite returning_write_ok by (cbn; by rewrite after_write_open_fails).
  cbn [fst snd]. split; [done|].
  rewrite after_write_queue. cbn [queue with_queue].
  by apply insert_swap_back.
Qed.

(** C5 at work on the two-task store. *)
Lemma switch_exchanges_witness :
  all_have_status (queue two_tasks) ∧
  switchable (queue two_tasks) 0 1 ∧ ¬ switchable (queue two_tasks) 0 7 ∧
  switch 0 7 two_tasks = (Ret (VBool false), two_tasks) ∧
  (switch 0 1 two_tasks).1 = Ret (VBool true) ∧
  queue (switch 0 1 two_tasks).2 !! 0 = Some (entry "queued" [0]) ∧
  queue (switch 0 1 two_tasks).2 !! 1 = Some (entry "queued" [-1]) ∧
  queue (switch 0 1 (switch 0 1 two_tasks).2).2 = queue two_tasks.
Proof.
  assert (all_have_status (queue two_tasks)) as Hall.
  { apply (bool_decide_unpack _). vm_compute. reflexivity. }
  assert (switchable (queue two_tasks) 0 1) as Hsw.
  { split.
    - exists (entry "queued" [-1]), (VStr "queued").
      split; [reflexivity|]. split; [reflexivity|]. apply list_elem_of_here.
    - exists (entry "queued" [0]), (VStr "queued").
      split; [reflexivity|]. split; [reflexivity|]. apply list_elem_of_here. }
  assert (¬ switchable (queue two_tasks) 0 7) as Hnot.
  { intros [_ (r & st & Hr & _)]. vm_compute in Hr. discriminate. }
  destruct (switch_exchanges 0 7 two_tasks (all_have_status_at _ 0 Hall)
              (all_have_status_at _ 7 Hall)) as (Hfalse & _ & _).
  destruct (switch_exchanges 0 1 two_tasks (all_have_status_at _ 0 Hall)
              (all_have_status_at _ 1 Hall)) as (_ & _ & Hok).
  destruct (Hok (entry "queued" [-1]) (entry "queued" [0])
              eq_refl eq_refl Hsw eq_refl)
    as (Htrue & Hnew0 & Hnew1 & _ & _ & Hback).
  split; [exact Hall|]. split; [exact Hsw|]. split; [exact Hnot|].
  split; [exact (Hfalse Hnot)|]. split; [exact Htrue|].
  split; [exact Hnew0|]. split; [exact Hnew1|]. exact Hback.
Defined.

(** ** [read] and [write] *)

(** What [read] does, by the state of the snapshot file. *)
Lemma read_eq s :
  read s =
  match snapshot s with
  | None => (Ret VNone, with_queue ∅ s)
  | Some (Pickled q) => (Ret VNone, with_queue q s)
  | Some (Corrupt _) =>
      let warned :=
        with_console
          (console s ++ ["Queue file corrupted, deleting old queue"]) s in
      if remove_fails s then (Raise OSError, warned)
      else (Ret VNone, with_queue ∅ (with_snapshot None warned))
  | Some Unreadable => (Raise OSError, s)
  end.
Proof.
  unfold read, path_exists, open_rb, pickle_load, os_remove. unfold_M.
  destruct s as [q0 n [[q|b|]|] o d c [|]]; by cbn.
Qed.

(** The part of the recovery that holds: without a snapshot file [read]
    leaves an empty store; a file that does not unpickle is warned about,
    deleted and replaced by an empty store when [os.remove] succeeds; a file
    that unpickles gives its store. *)
Lemma read_when_file_removable (s : State) :
  (snapshot s = None → read s = (Ret VNone, with_queue ∅ s)) ∧
  (∀ bytes, snapshot s = Some (Corrupt bytes) → remove_fails s = false →
     (read s).1 = Ret VNone ∧
     queue (read s).2 = ∅ ∧
     snapshot (read s).2 = None ∧
     console (read s).2 =
       console s ++ ["Queue file corrupted, deleting old queue"]) ∧
  (∀ q, snapshot s = Some (Pickled q) → read s = (Ret VNone, with_queue q s)).
Proof.
  rewrite read_eq. split; [by intros ->|]. split.
  - by intros bytes -> ->.
  - by intros q ->.
Qed.

Example read_recovers_from_corrupt_file :
  read corrupt_snapshot =
  (Ret VNone,
   with_console ["Queue file corrupted, deleting old queue"] empty_state).
Proof. vm_compute. reflexivity. Qed.

(** C6, at the inputs where it fails. When the snapshot file does not
    unpickle and [os.remove] raises, the error leaves [read] from inside the
    handler: the warning has been printed, the file is still there and
    [self.queue] has not been assigned. When the file cannot be opened for
    reading, [open] raises before the [try] is entered. In both cases an
    exception reaches the caller, against the docstring of [read]
    (read the queue of the last session or set [self.queue = {}]). *)
Theorem read_raises_when_recovery_fails (s : State) :
  (∀ bytes, snapshot s = Some (Corrupt bytes) → remove_fails s = true →
     read s =
     (Raise OSError,
      with_console
        (console s ++ ["Queue file corrupted, deleting old queue"]) s)) ∧
  (snapshot s = Some Unreadable → read s = (Raise OSError, s)).
Proof.
  rewrite read_eq. split.
  - by intros bytes -> ->.
  - by intros ->.
Qed.

(** C6 at its failing inputs: a corrupt file that cannot be removed, and a
    file that cannot be read. The file stays, [__init__] raises too. *)
Lemma read_raises_when_recovery_fails_witness :
  snapshot undeletable = Some (Corrupt [Byte.x00; Byte.xff]) ∧
  remove_fails undeletable = true ∧
  read undeletable =
    (Raise OSError,
     with_console ["Queue file corrupted, deleting old queue"] undeletable) ∧
  snapshot (read undeletable).2 = snapshot undeletable ∧
  snapshot unreadable = Some Unreadable ∧
  read unreadable = (Raise OSError, unreadable).
Proof.
  destruct (read_raises_when_recovery_fails undeletable) as (Hcorrupt & _).
  destruct (read_raises_when_recovery_fails unreadable) as (_ & Hlocked).
  split; [reflexivity|]. split; [reflexivity|].
  split; [exact (Hcorrupt _ eq_refl eq_refl)|].
  split; [by rewrite (Hcorrupt _ eq_refl eq_refl)|].
  split; [reflexivity|]. exact (Hlocked eq_refl).
Defined.

Example init_raises_when_recovery_fails :
  (__init__ undeletable).1 = Raise OSError ∧
  (__init__ unreadable).1 = Raise OSError.
Proof. vm_compute. split; reflexivity. Qed.

(** C7, at an input where it fails. When the snapshot file cannot be
    opened for writing, [write] raises: [open] sits before the [try], so
    the error leaves the method and no warning is printed. *)
Theorem write_raises_when_open_fails :
  write unwritable = (Raise OSError, unwritable).
Proof. by rewrite write_eq. Qed.

(** Once the file is open, a failure of [pickle.dump] is caught: [write]
    returns, prints its warning and leaves the store alone. *)
Lemma write_survives_dump_failure s written :
  open_fails s = false → dump_fails s = Some written →
  (write s).1 = Ret VNone ∧
  queue (write s).2 = queue s ∧
  next_key (write s).2 = next_key s ∧
  console (write s).2 =
    console s ++ ["Error while writing to queue file. Wrong file permissions?"].
Proof.
  intros Ho Hd. rewrite write_eq, Ho. unfold after_write. rewrite Hd. done.
Qed.

(** ** [clean] *)

Lemma clean_body_eq kv s :
  has_status kv.2 →
  clean_body kv s = (Ret (), with_queue (clean_step (queue s) kv) s).
Proof.
  intros [st Hst]. unfold clean_body, clean_step, was_in_flight, item_set.
  unfold_M. rewrite (getitem_Some _ _ _ Hst), Hst.
  destruct (py_in st in_flight); cbn.
  - rewrite !with_queue_with_queue. f_equal. f_equal.
    unfold requeue. by rewrite !alter_alter_eq.
  - by rewrite with_queue_id.
Qed.

Lemma for_each_clean l s :
  (∀ kv, kv ∈ l → has_status kv.2) →
  for_each l clean_body s = (Ret (), with_queue (foldl clean_step (queue s) l) s).
Proof.
  revert s. induction l as [|kv l IH]; intros s Hl.
  { cbn. by rewrite with_queue_id. }
  cbn [for_each foldl]. unfold mbind, M_bind.
  rewrite clean_body_eq by (apply Hl; by left).
  rewrite IH by (intros; apply Hl; by right).
  by rewrite with_queue_with_queue.
Qed.

Lemma cleaned_lookup (m : store) k r :
  m !! k = Some r → clean_step m (k, r) !! k = Some (cleaned r).
Proof.
  intros Hk. unfold clean_step, cleaned. cbn.
  destruct (was_in_flight r); [|done].
  by rewrite lookup_alter_eq, Hk.
Qed.

Lemma clean_step_other (m : store) kv k :
  k ≠ kv.1 → clean_step m kv !! k = m !! k.
Proof.
  intros Hk. unfold clean_step. destruct (was_in_flight kv.2); [|done].
  by rewrite lookup_alter_ne.
Qed.

Lemma foldl_clean_step_lookup l (m : store) k :
  NoDup l.*1 →
  (∀ k' r, (k', r) ∈ l → m !! k' = Some r) →
  foldl clean_step m l !! k =
    if decide (k ∈ l.*1) then cleaned <$> m !! k else m !! k.
Proof.
  revert m. induction l as [|[k0 r0] l IH]; intros m Hnd Hm.
  { cbn. case_decide as Hin; [|done]. by apply elem_of_nil in Hin. }
  cbn [foldl]. rewrite fmap_cons in Hnd. apply NoDup_cons in Hnd as [Hk0 Hnd].
  assert (m !! k0 = Some r0) as Hm0 by (apply Hm; by left).
  rewrite IH; [|done|].
  2:{ intros k' r Hin. rewrite clean_step_other; [apply Hm; by right|].
      cbn. intros ->. apply Hk0. apply list_elem_of_fmap. by exists (k0, r). }
  rewrite fmap_cons. cbn [fst].
  destruct (decide (k = k0)) as [->|Hne].
  - rewrite decide_False by done. rewrite decide_True by by left.
    rewrite (cleaned_lookup _ _ _ Hm0). by rewrite Hm0.
  - rewrite clean_step_other by done.
    destruct (decide (k ∈ l.*1)) as [Hin|Hin].
    + rewrite decide_True; [done|by right].
    + rewrite decide_False; [done|]. intros [?|?]%elem_of_cons; done.
Qed.

Lemma clean_eq s :
  all_have_status (queue s) →
  clean s = (Ret VNone, with_queue (cleaned <$> queue s) s).
Proof.
  intros Hall. unfold clean. unfold mbind, M_bind, gets, mret, M_ret.
  rewrite for_each_clean.
  2:{ intros [k r] Hin. apply elem_of_map_to_list in Hin. by apply (Hall k). }
  f_equal. f_equal. apply map_eq. intros k.
  rewrite foldl_clean_step_lookup.
  - rewrite lookup_fmap. case_decide as Hin; [done|].
    destruct (queue s !! k) as [r|] eqn:Hk; [|done].
    destruct Hin. apply elem_of_keys. by exists r.
  - apply NoDup_fst_map_to_list.
  - intros k' r Hin. by apply elem_of_map_to_list.
Qed.

(** Conversely, [clean] raises when a record has no status. *)
Lemma for_each_clean_Ret_inv l s u s' :
  for_each l clean_body s = (Ret u, s') → ∀ kv, kv ∈ l → has_status kv.2.
Proof.
  revert s. induction l as [|x l IH]; intros s Hret kv Hin.
  { by apply elem_of_nil in Hin. }
  cbn [for_each] in Hret. apply bind_Ret_inv in Hret as (? & s1 & Hx & Hl).
  apply elem_of_cons in Hin as [->|Hin]; [|by apply (IH s1)].
  unfold clean_body in Hx. apply bind_Ret_inv in Hx as (st & ? & Hst & _).
  unfold lift, getitem in Hst. unfold has_status.
  destruct (x.2 !! "status"); [by eexists|]. by injection Hst.
Qed.

Lemma clean_Ret_inv s v : (clean s).1 = Ret v → all_have_status (queue s).
Proof.
  intros Hret k r Hk.
  destruct (clean s) as [o s'] eqn:Hclean. cbn in Hret. subst o.
  unfold clean in Hclean.
  apply bind_Ret_inv in Hclean as (items & s1 & Hitems & Hclean).
  apply bind_Ret_inv in Hclean as (u & s2 & Hloop & _).
  unfold gets in Hitems. injection Hitems as <- <-.
  apply (for_each_clean_Ret_inv _ _ _ _ Hloop (k, r)).
  by apply elem_of_map_to_list.
Qed.

Lemma same_outside_clean_body kv s : same_outside s (clean_body kv s).2.
Proof.
  unfold clean_body, item_set. unfold_M.
  destruct (getitem kv.2 "status") as [st|e]; [|done].
  by destruct (py_in st in_flight).
Qed.

Lemma same_outside_clean s : same_outside s (clean s).2.
Proof.
  unfold clean. unfold mbind, M_bind, gets, mret, M_ret.
  assert (∀ l s0, same_outside s0 (for_each l clean_body s0).2) as Hloop.
  { induction l as [|x l IH]; intros s0; [done|].
    cbn [for_each]. unfold mbind, M_bind.
    pose proof (same_outside_clean_body x s0) as (H1 & H2 & H3).
    destruct (clean_body x s0) as [[[]|e] s1]; [|done].
    destruct (IH s1) as (H4 & H5 & H6). cbn in *.
    repeat split; congruence. }
  specialize (Hloop (map_to_list (queue s)) s).
  by destruct (for_each _ _ s) as [[[]|e] s1].
Qed.

(** C8. [clean] touches nothing but the store: it writes no snapshot and
    prints nothing. It returns, rather than raises, exactly when every
    record carries a status, and then it gives every record whose status
    is [paused], [running], [stopping] or [killing] the status [queued]
    and an empty [start] and [end], and changes no other field and no
    other record. *)
Theorem clean_requeues_in_flight (s : State) :
  same_outside s (clean s).2 ∧
  ((∃ v, (clean s).1 = Ret v) → all_have_status (queue s)) ∧
  (all_have_status (queue s) →
   clean s = (Ret VNone, with_queue (cleaned <$> queue s) s) ∧
   ∀ k, queue (clean s).2 !! k = cleaned <$> queue s !! k) ∧
  (∀ r st, r !! "status" = Some st → st ∈ in_flight →
     cleaned r !! "status" = Some (VStr "queued") ∧
     cleaned r !! "start" = Some (VStr "") ∧
     cleaned r !! "end" = Some (VStr "") ∧
     ∀ f, f ≠ "status" → f ≠ "start" → f ≠ "end" → cleaned r !! f = r !! f) ∧
  (∀ r st, r !! "status" = Some st → st ∉ in_flight → cleaned r = r).
Proof.
  split; [apply same_outside_clean|].
  split; [intros [v Hv]; by apply (clean_Ret_inv s v)|].
  split; [|split].
  - intros Hall. rewrite (clean_eq s Hall). cbn.
    split; [done|]. intros k. apply lookup_fmap.
  - intros r st Hst Hin. unfold cleaned, was_in_flight. rewrite Hst.
    apply py_in_true in Hin. rewrite Hin. unfold requeue.
    split; [by rewrite !lookup_insert_ne, lookup_insert_eq by done|].
    split; [by rewrite lookup_insert_ne, lookup_insert_eq by done|].
    split; [by rewrite lookup_insert_eq|].
    intros f H1 H2 H3. by rewrite !lookup_insert_ne by done.
  - intros r st Hst Hin. unfold cleaned, was_in_flight. rewrite Hst.
    destruct (py_in st in_flight) eqn:Hp; [|done].
    by apply py_in_true in Hp.
Qed.

(** C8 at work on the store of a crashed daemon. *)
Lemma clean_requeues_in_flight_witness :
  all_have_status (queue crashed) ∧
  (clean crashed).1 = Ret VNone ∧
  queue (clean crashed).2 !! 0 = Some (<["start" := VStr ""]> (<["end" := VStr ""]> (entry "queued" [-1]))) ∧
  queue (clean crashed).2 !! 1 = Some (entry "done" [-1]) ∧
  snapshot (clean crashed).2 = None.
Proof.
  assert (all_have_status (queue crashed)) as Hall.
  { apply (bool_decide_unpack _). vm_compute. reflexivity. }
  destruct (clean_requeues_in_flight crashed) as ((_ & Hsnap & _) & _ & Hok & _).
  destruct (Hok Hall) as [Heq Hlook].
  split; [exact Hall|]. split; [by rewrite Heq|].
  split; [|split; [|exact Hsnap]].
  - rewrite (Hlook 0). apply (f_equal Some). apply map_eq. intros f.
    vm_compute. reflexivity.
  - rewrite (Hlook 1). reflexivity.
Defined.

(** ** Records without a dependency field *)

Lemma fill_depd_status r : fill_depd r !! "status" = r !! "status".
Proof.
  unfold fill_depd. destruct (r !! "depd"); [done|].
  by rewrite lookup_insert_ne.
Qed.

Lemma key_lookup_fill q d :
  key_lookup (fill_depd <$> q) d = fill_depd <$> key_lookup q d.
Proof. destruct d; try done. cbn. apply lookup_fmap. Qed.

Lemma depd_loop_fill q ds ok :
  depd_loop (fill_depd <$> q) ds ok = depd_loop q ds ok.
Proof.
  revert ok. induction ds as [|d ds IH]; intros ok; [done|].
  cbn [depd_loop]. rewrite key_lookup_fill.
  destruct (key_lookup q d) as [rd|]; cbn; [|apply IH].
  destruct ok; [|apply IH].
  unfold getitem. rewrite fill_depd_status.
  destruct (rd !! "status"); cbn; [apply IH|done].
Qed.

Lemma depd_ok_fill q k : _depd_ok (fill_depd <$> q) k = _depd_ok q k.
Proof.
  unfold _depd_ok, queue_getitem. rewrite lookup_fmap.
  destruct (q !! k) as [r|]; cbn; [|done].
  unfold fill_depd at 1. destruct (r !! "depd") as [d|] eqn:Hd.
  - rewrite Hd. destruct (py_eq d sentinel); [done|].
    destruct (py_iter d); cbn; [apply depd_loop_fill|done].
  - by rewrite lookup_insert_eq.
Qed.

Lemma next_body_fill q sm k :
  next_body (fill_depd <$> q) sm k = next_body q sm k.
Proof.
  unfold next_body. rewrite depd_ok_fill.
  unfold queue_getitem. rewrite lookup_fmap.
  destruct (q !! k) as [r|]; cbn; [|done].
  unfold getitem. by rewrite fill_depd_status.
Qed.

Lemma next_loop_fill q l sm :
  next_loop (fill_depd <$> q) l sm = next_loop q l sm.
Proof.
  revert sm. induction l as [|k l IH]; intros sm; [done|].
  cbn [next_loop]. rewrite next_body_fill.
  destruct (next_body q sm k); cbn; [apply IH|done].
Qed.

Lemma keys_fmap (f : record → record) (q : store) : keys (f <$> q) = keys q.
Proof.
  unfold keys. rewrite map_to_list_fmap, <-list_fmap_compose.
  apply list_fmap_ext. by intros _ [k r] _.
Qed.

Lemma next_of_fill q : next_of (fill_depd <$> q) = next_of q.
Proof. unfold next_of. by rewrite keys_fmap, next_loop_fill. Qed.

(** C10. A record without a [depd] field passes the dependency check, as
    a record with the sentinel does, and putting the sentinel into every
    record that lacks the field does not change what [next] returns. In a
    well-formed store such a record is eligible as soon as it is queued,
    so [next] returns a key, and one that is not above it. *)
Theorem missing_depd_is_no_dependency (s : State) :
  (next (with_queue (fill_depd <$> queue s) s)).1 = (next s).1 ∧
  (∀ k r, queue s !! k = Some r → r !! "depd" = None →
     _depd_ok (queue s) k = Ret true ∧
     _depd_ok (<[k := <["depd" := sentinel]> r]> (queue s)) k = Ret true) ∧
  (∀ k r, well_formed (queue s) →
     queue s !! k = Some r → r !! "depd" = None →
     r !! "status" = Some (VStr "queued") →
     eligible (queue s) k ∧
     ∃ k', next s = (Ret (VInt k'), s) ∧ k' ≤ k).
Proof.
  split; [|split].
  - rewrite !next_eq. cbn. apply next_of_fill.
  - intros k r Hk Hd. unfold _depd_ok, queue_getitem.
    rewrite Hk, lookup_insert_eq. cbn. by rewrite Hd, lookup_insert_eq.
  - intros k r Hwf Hk Hd Hst.
    assert (eligible (queue s) k) as He.
    { exists r. split; [done|]. split; [done|]. right.
      intros d rd Hin. unfold depd_keys in Hin. rewrite Hd in Hin.
      by apply elem_of_nil in Hin. }
    split; [done|].
    destruct (next_of_spec (queue s) Hwf) as (res & Hres & Hspec).
    rewrite next_eq, Hres.
    destruct res as [| |k'| |]; try done.
    + by destruct (Hspec k).
    + exists k'. split; [done|]. by apply Hspec.
Qed.

(** C10 at work: task [3] has no [depd] field and is queued. *)
Lemma missing_depd_is_no_dependency_witness :
  well_formed (queue legacy) ∧
  _depd_ok (queue legacy) 3 = Ret true ∧
  eligible (queue legacy) 3 ∧
  ∃ k', next legacy = (Ret (VInt k'), legacy) ∧ k' ≤ 3.
Proof.
  assert (well_formed (queue legacy)) as Hwf.
  { apply (bool_decide_unpack _). vm_compute. reflexivity. }
  destruct (missing_depd_is_no_dependency legacy) as (_ & Hok & Hel).
  destruct (Hok 3 _ eq_refl eq_refl) as [Hdep _].
  destruct (Hel 3 _ Hwf eq_refl eq_refl eq_refl) as [He Hnext].
  split; [exact Hwf|]. split; [exact Hdep|]. split; [exact He|exact Hnext].
Defined.

(** ** The allocator *)

Lemma shrinks_refl s : shrinks s s.
Proof. by split. Qed.

Lemma shrinks_trans s1 s2 s3 : shrinks s1 s2 → shrinks s2 s3 → shrinks s1 s3.
Proof.
  intros [Hn1 Hk1] [Hn2 Hk2]. split; [congruence|]. auto.
Qed.

Lemma shrinks_grows s s' : shrinks s s' → grows s s'.
Proof. by left. Qed.

Lemma shrinks_write s : shrinks s (write s).2.
Proof.
  split; [apply write_next_key|]. intros k. by rewrite write_queue.
Qed.

Lemma shrinks_returning_write v s : shrinks s (returning v (write s)).2.
Proof. apply shrinks_write. Qed.

Lemma for_each_shrinks {A} (body : A → M unit) l s :
  (∀ x s1, shrinks s1 (body x s1).2) → shrinks s (for_each l body s).2.
Proof.
  intros Hbody. revert s. induction l as [|x l IH]; intros s.
  { apply shrinks_refl. }
  cbn [for_each]. unfold mbind, M_bind.
  pose proof (Hbody x s) as Hx.
  destruct (body x s) as [[[]|e] s1]; [|done].
  eapply shrinks_trans; [exact Hx|apply IH].
Qed.

Lemma shrinks_clean_body kv s : shrinks s (clean_body kv s).2.
Proof.
  unfold clean_body, item_set. unfold_M.
  destruct (getitem kv.2 "status") as [st|e]; [|apply shrinks_refl].
  destruct (py_in st in_flight); cbn; [|apply shrinks_refl].
  split; [done|]. intros k. cbn.
  rewrite !lookup_alter_is_Some. done.
Qed.

Lemma shrinks_clear_body key s : shrinks s (clear_body key s).2.
Proof.
  unfold clear_body. unfold_M. cbn -[py_in].
  destruct (queue_getitem (queue s) key) as [r|e]; cbn -[py_in];
    [|apply shrinks_refl].
  destruct (getitem r "status") as [st|e]; cbn -[py_in]; [|apply shrinks_refl].
  destruct (py_in st finished); cbn; [|apply shrinks_refl].
  split; [done|]. intros k. cbn.
  destruct (decide (k = key)) as [->|Hne].
  - rewrite lookup_delete_eq. by intros [? ?].
  - by rewrite lookup_delete_ne.
Qed.

Lemma shrinks_clean s : shrinks s (clean s).2.
Proof.
  unfold clean. unfold mbind, M_bind, gets, mret, M_ret.
  pose proof (for_each_shrinks clean_body (map_to_list (queue s)) s
                shrinks_clean_body) as H.
  by destruct (for_each _ _ s) as [[[]|e] s1].
Qed.

Lemma shrinks_clear s : shrinks s (clear s).2.
Proof.
  unfold clear. unfold mbind, M_bind, gets, mret, M_ret.
  pose proof (for_each_shrinks clear_body (keys (queue s)) s
                shrinks_clear_body) as H.
  destruct (for_each _ _ s) as [[[]|e] s1]; [|done].
  pose proof (shrinks_write s1) as Hw.
  destruct (write s1) as [[v|e] s2]; cbn in *; by eapply shrinks_trans.
Qed.

Lemma shrinks_remove key s : shrinks s (remove key s).2.
Proof.
  rewrite remove_eq. case_bool_decide; [|apply shrinks_refl].
  eapply shrinks_trans; [|apply shrinks_returning_write].
  split; [done|]. intros k. cbn.
  destruct (decide (k = key)) as [->|Hne].
  - rewrite lookup_delete_eq. by intros [? ?].
  - by rewrite lookup_delete_ne.
Qed.

Lemma shrinks_switch first second s : shrinks s (switch first second s).2.
Proof.
  rewrite switch_eq.
  destruct (queue s !! first) as [r1|] eqn:H1; [|apply shrinks_refl].
  destruct (queue s !! second) as [r2|] eqn:H2; [|apply shrinks_refl].
  destruct (r1 !! "status") as [st1|]; [|apply shrinks_refl].
  destruct (py_in st1 _); [|apply shrinks_refl].
  destruct (r2 !! "status") as [st2|]; [|apply shrinks_refl].
  destruct (py_in st2 _); [|apply shrinks_refl].
  eapply shrinks_trans; [|apply shrinks_returning_write].
  split; [done|]. intros k. cbn.
  destruct (decide (k = first)) as [->|Hk1]; [by rewrite H1|].
  rewrite lookup_insert_ne by done.
  destruct (decide (k = second)) as [->|Hk2]; [by rewrite H2|].
  by rewrite lookup_insert_ne.
Qed.

Lemma grows_add_new command s : grows s (add_new command s).2.
Proof.
  right. rewrite add_new_next_key, add_new_queue. split; [done|].
  intros k. destruct (decide (k = next_key s)) as [->|Hne]; [by right|].
  rewrite lookup_insert_ne by done. by left.
Qed.

Lemma grows_restart key s : grows s (restart key s).2.
Proof.
  rewrite restart_eq.
  destruct (queue s !! key) as [r|]; [|apply shrinks_grows, shrinks_refl].
  destruct (r !! "status") as [st|]; [|apply shrinks_grows, shrinks_refl].
  destruct (py_in st _); [|apply shrinks_grows, shrinks_refl].
  destruct (r !! "command") as [c|]; [|apply shrinks_grows, shrinks_refl].
  destruct (r !! "path") as [p|]; [|apply shrinks_grows, shrinks_refl].
  pose proof (grows_add_new {[ "command" := c; "path" := p ]} s) as Hadd.
  destruct (add_new _ s) as [[v|e] s1]; [|done].
  pose proof (shrinks_returning_write (VBool true) s1) as [Hn Hk].
  cbn in Hadd.
  destruct Hadd as [[Hn1 Hk1]|[Hn1 Hk1]]; [left|right]; split;
    try congruence; intros k Hin; apply Hk1, Hk, Hin.
Qed.

Lemma grows_run_op o s : o ≠ OpReset → grows s (run_op o s).2.
Proof.
  intros Ho. destruct o; cbn [run_op]; try done.
  - apply grows_add_new.
  - apply shrinks_grows, shrinks_remove.
  - apply grows_restart.
  - apply shrinks_grows, shrinks_switch.
  - apply shrinks_grows, shrinks_clear.
  - apply shrinks_grows, shrinks_clean.
  - apply shrinks_grows, shrinks_refl.
Qed.

Lemma reset_empty s : next_key (reset s).2 = 0 ∧ queue (reset s).2 = ∅.
Proof.
  unfold reset. unfold_M. cbn -[write].
  pose proof (write_queue (with_next_key 0 (with_queue ∅ s))) as Hq.
  pose proof (write_next_key (with_next_key 0 (with_queue ∅ s))) as Hn.
  by destruct (write _) as [[v|e] s1].
Qed.

Lemma grows_keys_below s s' : grows s s' → keys_below s → keys_below s'.
Proof.
  intros [[Hn Hk]|[Hn Hk]] Hb k Hin; rewrite Hn.
  - by apply Hb, Hk.
  - destruct (Hk k Hin) as [Hold| ->]; [|lia].
    specialize (Hb k Hold). lia.
Qed.

Lemma grows_next_key s s' : grows s s' → next_key s ≤ next_key s'.
Proof. intros [[Hn _]|[Hn _]]; lia. Qed.

Lemma run_op_keys_below o s : keys_below s → keys_below (run_op o s).2.
Proof.
  destruct o; try (by apply grows_keys_below, grows_run_op).
  intros _ k. cbn [run_op]. destruct (reset_empty s) as [_ ->].
  rewrite lookup_empty. by intros [? ?].
Qed.

Lemma foldl_max_ge x l :
  x ≤ foldl Z.max x l ∧ ∀ y, y ∈ l → y ≤ foldl Z.max x l.
Proof.
  revert x. induction l as [|z l IH]; intros x; cbn.
  { split; [lia|]. by intros y ?%elem_of_nil. }
  destruct (IH (Z.max x z)) as [H1 H2]. split; [lia|].
  intros y [->|Hin]%elem_of_cons; [lia|by apply H2].
Qed.

Lemma foldl_max_in x l : foldl Z.max x l ∈ x :: l.
Proof.
  revert x. induction l as [|z l IH]; intros x; cbn.
  { by left. }
  specialize (IH (Z.max x z)).
  apply elem_of_cons in IH as [Heq|Hin].
  - rewrite Heq. destruct (Z.max_spec x z) as [[_ ->]|[_ ->]].
    + right. by left.
    + by left.
  - right. by right.
Qed.

Lemma init_is_read_clean_allocate :
  __init__ = (read;; clean;; init_next_key).
Proof. reflexivity. Qed.

Lemma init_next_key_spec s :
  ∃ n, init_next_key s = (Ret VNone, with_next_key n s) ∧
       (∀ k, is_Some (queue s !! k) → k < n) ∧
       (queue s = ∅ → n = 0) ∧
       (queue s ≠ ∅ → ∃ k, is_Some (queue s !! k) ∧ n = k + 1).
Proof.
  unfold init_next_key. unfold_M. cbn.
  case_bool_decide as Hsize.
  - assert (queue s ≠ ∅) as Hne.
    { apply map_size_non_empty_iff. lia. }
    destruct (keys (queue s)) as [|x l] eqn:Hkeys.
    { exfalso. apply Hne. apply map_to_list_empty_iff.
      unfold keys in Hkeys. by apply fmap_nil_inv in Hkeys. }
    cbn. exists (foldl Z.max x l + 1). split; [done|].
    destruct (foldl_max_ge x l) as [Hx Hl].
    split; [|split; [done|]].
    + intros k Hk. apply elem_of_keys in Hk. rewrite Hkeys in Hk.
      apply elem_of_cons in Hk as [->|Hin]; [lia|].
      specialize (Hl _ Hin). lia.
    + intros _. exists (foldl Z.max x l). split; [|done].
      apply elem_of_keys. rewrite Hkeys. apply foldl_max_in.
  - assert (queue s = ∅) as He.
    { apply map_size_empty_iff. lia. }
    exists 0. split; [done|]. split; [|split; [done|done]].
    intros k. rewrite He, lookup_empty. by intros [? ?].
Qed.

Lemma run_app ops1 ops2 s : run (ops1 ++ ops2) s = run ops2 (run ops1 s).
Proof. unfold run. apply foldl_app. Qed.

Lemma run_next_key_mono ops s :
  OpReset ∉ ops → next_key s ≤ next_key (run ops s).
Proof.
  revert s. induction ops as [|o ops IH]; intros s Hno; cbn; [lia|].
  assert (o ≠ OpReset) as Ho by (intros ->; apply Hno; by left).
  assert (OpReset ∉ ops) as Hops by (intros ?; apply Hno; by right).
  pose proof (grows_next_key _ _ (grows_run_op o s Ho)).
  specialize (IH (run_op o s).2 Hops). unfold run in IH. lia.
Qed.

Lemma run_keys_below ops s : keys_below s → keys_below (run ops s).
Proof.
  revert s. induction ops as [|o ops IH]; intros s Hb; cbn; [done|].
  apply IH. by apply run_op_keys_below.
Qed.

(** C9. [__init__] sets [next_key] to the largest key of the loaded store
    plus one, or to [0] when the store is empty, which puts it above every
    key of the store; every operation keeps it above every key of the
    store. [add_new] moves it up by one, no operation other than [reset]
    ever lowers it, so along a run without [reset] it stays above every key
    the store has held; [reset] empties the store and sets it back to [0]. *)
Theorem next_key_above_keys :
  (∀ s v, (__init__ s).1 = Ret v →
     keys_below (__init__ s).2 ∧
     (queue (__init__ s).2 = ∅ → next_key (__init__ s).2 = 0) ∧
     (queue (__init__ s).2 ≠ ∅ →
      ∃ k, is_Some (queue (__init__ s).2 !! k) ∧
           next_key (__init__ s).2 = k + 1)) ∧
  (∀ o s, keys_below s → keys_below (run_op o s).2) ∧
  (∀ command s, next_key (add_new command s).2 = next_key s + 1) ∧
  (∀ o s, o ≠ OpReset → next_key s ≤ next_key (run_op o s).2) ∧
  (∀ s, next_key (reset s).2 = 0 ∧ queue (reset s).2 = ∅) ∧
  (∀ pre post s k,
     keys_below s → OpReset ∉ pre ++ post →
     is_Some (queue (run pre s) !! k) →
     k < next_key (run (pre ++ post) s) ∧
     next_key (run pre s) ≤ next_key (run (pre ++ post) s)).
Proof.
  split; [|split; [|split; [|split; [|split]]]].
  - intros s v Hret. rewrite init_is_read_clean_allocate in *.
    destruct ((read;; clean;; init_next_key) s) as [o s'] eqn:Hinit.
    cbn in Hret. subst o.
    apply bind_Ret_inv in Hinit as (? & s1 & _ & Hinit).
    apply bind_Ret_inv in Hinit as (? & s2 & _ & Hinit).
    destruct (init_next_key_spec s2) as (n & Heq & Hbelow & Hempty & Hmax).
    rewrite Heq in Hinit. injection Hinit as _ <-. cbn.
    split; [exact Hbelow|]. split; [exact Hempty|exact Hmax].
  - apply run_op_keys_below.
  - apply add_new_next_key.
  - intros o s Ho. by apply grows_next_key, grows_run_op.
  - apply reset_empty.
  - intros pre post s k Hb Hno Hk. rewrite run_app.
    assert (OpReset ∉ post) as Hpost.
    { intros Hin. apply Hno, elem_of_app. by right. }
    pose proof (run_next_key_mono post (run pre s) Hpost) as Hmono.
    split; [|done].
    pose proof (run_keys_below pre s Hb k Hk). lia.
Qed.

(** C9 at work: a load, and a run without [reset]. *)
Lemma next_key_above_keys_witness :
  (__init__ saved_snapshot).1 = Ret VNone ∧
  next_key (__init__ saved_snapshot).2 = 2 ∧
  keys_below (__init__ saved_snapshot).2 ∧
  keys_below empty_state ∧
  is_Some (queue once_added !! 0) ∧
  0 < next_key (run ([OpAdd (task "echo hi" "/tmp")] ++ [OpRemove 0; OpNext]) empty_state).
Proof.
  destruct next_key_above_keys as (Hinit & _ & _ & _ & _ & Hrun).
  assert (keys_below empty_state) as Hb.
  { apply keys_below_Forall, (bool_decide_unpack _). vm_compute. reflexivity. }
  assert (is_Some (queue once_added !! 0)) as Hk.
  { unfold once_added, run. cbn [foldl run_op].
    rewrite add_new_queue. cbn. rewrite lookup_insert_eq. by eexists. }
  assert (OpReset ∉ [OpAdd (task "echo hi" "/tmp")] ++ [OpRemove 0; OpNext]) as Hno.
  { cbn. intros Hin. rewrite !elem_of_cons, elem_of_nil in Hin.
    destruct Hin as [?|[?|[?|[]]]]; discriminate. }
  assert ((__init__ saved_snapshot).1 = Ret VNone) as Hret.
  { vm_compute. reflexivity. }
  destruct (Hinit saved_snapshot VNone Hret) as (Hbelow & _ & _).
  split; [exact Hret|]. split; [vm_compute; reflexivity|].
  split; [exact Hbelow|]. split; [exact Hb|]. split; [exact Hk|].
  exact (proj1 (Hrun [OpAdd (task "echo hi" "/tmp")] [OpRemove 0; OpNext]
                  empty_state 0 Hb Hno Hk)).
Defined.

(** C9 as stated fails. The store is loaded empty, one command is added
    under key [0], then the store is reset: [next_key] goes from [1] back
    to [0], which is not above the key [0] handed out before, and the next
    addition uses that key again. *)
Lemma reset_rewinds_next_key :
  __init__ empty_state = (Ret VNone, empty_state) ∧
  is_Some (queue once_added !! 0) ∧
  next_key once_added = 1 ∧
  next_key then_reset = 0 ∧
  ¬ (0 < next_key then_reset) ∧
  next_key then_reset < next_key once_added ∧
  assigned_keys [ReqAdd (task "true" "/")] then_reset = [0].
Proof.
  assert (next_key once_added = 1) as H1.
  { unfold once_added, run. cbn [foldl run_op]. by rewrite add_new_next_key. }
  assert (next_key then_reset = 0) as H2.
  { unfold then_reset, run. cbn [foldl run_op]. apply reset_empty. }
  split; [vm_compute; reflexivity|]. split.
  { unfold once_added, run. cbn [foldl run_op].
    rewrite add_new_queue. cbn. rewrite lookup_insert_eq. by eexists. }
  split; [done|]. split; [done|].
  split; [rewrite H2; lia|]. split; [rewrite H2, H1; lia|].
  cbn [assigned_keys]. by rewrite H2.
Qed.

(** * Further properties of the queue *)

(** ** Accessors *)

(** X1. The dict-like accessors work in memory only. [__setitem__] puts
    the record under the key, for [get] and [__getitem__] to find, and
    changes no other key; [__delitem__] of a key that is there takes out
    that key and nothing else; neither touches the allocator, the snapshot
    file or the console. For a key that is not in the store [get] answers
    [None], where [__getitem__] and [__delitem__] raise [KeyError], and the
    state stays as it was. *)
Theorem accessors_in_memory (key : Z) (v : record) (s : State) :
  ((__setitem__ key v s).1 = Ret VNone ∧
   same_outside s (__setitem__ key v s).2 ∧
   get key (__setitem__ key v s).2 = (Ret (Some v), (__setitem__ key v s).2) ∧
   __getitem__ key (__setitem__ key v s).2 = (Ret v, (__setitem__ key v s).2) ∧
   ∀ k, k ≠ key → queue (__setitem__ key v s).2 !! k = queue s !! k) ∧
  (is_Some (queue s !! key) →
   (__delitem__ key s).1 = Ret VNone ∧
   same_outside s (__delitem__ key s).2 ∧
   queue (__delitem__ key s).2 = delete key (queue s)) ∧
  (queue s !! key = None →
   get key s = (Ret None, s) ∧
   __getitem__ key s = (Raise KeyError, s) ∧
   __delitem__ key s = (Raise KeyError, s)).
Proof.
  unfold get, __getitem__, __setitem__, __delitem__, queue_getitem.
  unfold_M. cbn. split; [|split].
  - split; [done|]. split; [done|].
    rewrite lookup_insert_eq. split; [done|]. split; [done|].
    intros k Hk. by rewrite lookup_insert_ne.
  - intros [r Hr]. by rewrite Hr.
  - intros Hk. by rewrite Hk.
Qed.

Lemma accessors_in_memory_witness :
  is_Some (queue one_done !! 0) ∧ queue one_done !! 4 = None ∧
  queue (__delitem__ 0 one_done).2 = delete 0 (queue one_done) ∧
  get 4 one_done = (Ret None, one_done) ∧
  __delitem__ 4 one_done = (Raise KeyError, one_done).
Proof.
  assert (is_Some (queue one_done !! 0)) as Hk by (by eexists).
  destruct (accessors_in_memory 0 ∅ one_done) as (_ & Hdel & _).
  destruct (accessors_in_memory 4 ∅ one_done) as (_ & _ & Habsent).
  destruct (Hdel Hk) as (_ & _ & Hq).
  destruct (Habsent eq_refl) as (Hget & _ & Hraise).
  split; [exact Hk|]. split; [reflexivity|]. split; [exact Hq|].
  split; [exact Hget|exact Hraise].
Defined.

(** X2. A record put with [__setitem__] under a key below the allocator
    keeps the allocator above every key. Put under the key the allocator
    points at, it is lost: the next [add_new] stores its command under
    that very key. *)
Theorem setitem_and_the_allocator (key : Z) (v command : record) (s : State) :
  (keys_below s → key < next_key s → keys_below (__setitem__ key v s).2) ∧
  (key = next_key s →
   queue (__setitem__ key v s).2 !! key = Some v ∧
   queue (add_new command (__setitem__ key v s).2).2 !! key
     = Some (new_entry command)).
Proof.
  split.
  - intros Hb Hlt k. unfold __setitem__. unfold_M. cbn.
    destruct (decide (k = key)) as [->|Hne]; [done|].
    rewrite lookup_insert_ne by done. apply Hb.
  - intros ->. rewrite add_new_queue.
    unfold __setitem__. unfold_M. cbn. by rewrite !lookup_insert_eq.
Qed.

Lemma setitem_and_the_allocator_witness :
  keys_below one_done ∧ 0 < next_key one_done ∧
  keys_below (__setitem__ 0 (entry "queued" [-1]) one_done).2 ∧
  queue (add_new (task "ls" "/") (__setitem__ 1 (entry "queued" [-1]) one_done).2).2 !! 1
    = Some (new_entry (task "ls" "/")).
Proof.
  assert (keys_below one_done) as Hb.
  { apply keys_below_Forall, (bool_decide_unpack _). vm_compute. reflexivity. }
  assert (0 < next_key one_done) as Hlt by (cbn; lia).
  destruct (setitem_and_the_allocator 0 (entry "queued" [-1]) ∅ one_done)
    as [Hkeep _].
  destruct (setitem_and_the_allocator 1 (entry "queued" [-1]) (task "ls" "/")
              one_done) as [_ Hlost].
  split; [exact Hb|]. split; [exact Hlt|]. split; [exact (Hkeep Hb Hlt)|].
  exact (proj2 (Hlost eq_refl)).
Defined.

(** ** [remove] *)

Lemma remove_queue key s : queue (remove key s).2 = delete key (queue s).
Proof.
  rewrite remove_eq. case_bool_decide as Hk.
  - by rewrite returning_write_queue.
  - cbn. symmetry. apply delete_id.
    destruct (queue s !! key) eqn:Hq; [|done]. destruct Hk. by eexists.
Qed.

(** X3. [remove] takes the key out of the store and leaves every other
    record and the allocator as they are. It writes the snapshot only when
    the key was there: for a key that is not in the store it returns
    [False] and changes nothing at all; for a key that is, and a snapshot
    file that can be written, it returns [True] and the file then holds the
    new store. *)
Theorem remove_deletes_one_key (key : Z) (s : State) :
  queue (remove key s).2 = delete key (queue s) ∧
  next_key (remove key s).2 = next_key s ∧
  (queue s !! key = None → remove key s = (Ret (VBool false), s)) ∧
  ((remove key s).1 = Ret (VBool true) → is_Some (queue s !! key)) ∧
  (is_Some (queue s !! key) → writable s →
   (remove key s).1 = Ret (VBool true) ∧ in_sync (remove key s).2).
Proof.
  split; [apply remove_queue|]. split; [apply remove_next_key|].
  rewrite remove_eq. split; [|split].
  - intros Hk. rewrite bool_decide_eq_false_2; [done|].
    rewrite Hk. by intros [? ?].
  - case_bool_decide; [done|]. discriminate.
  - intros Hk [Ho Hd]. rewrite bool_decide_eq_true_2 by done.
    rewrite returning_write_ok by done. split; [done|].
    unfold in_sync, after_write. cbn. by rewrite Hd.
Qed.

Lemma remove_deletes_one_key_witness :
  queue one_done !! 4 = None ∧ is_Some (queue one_done !! 0) ∧
  writable one_done ∧
  remove 4 one_done = (Ret (VBool false), one_done) ∧
  (remove 0 one_done).1 = Ret (VBool true) ∧
  in_sync (remove 0 one_done).2.
Proof.
  assert (is_Some (queue one_done !! 0)) as Hk by (by eexists).
  assert (writable one_done) as Hw by (by split).
  destruct (remove_deletes_one_key 4 one_done) as (_ & _ & Habsent & _).
  destruct (remove_deletes_one_key 0 one_done) as (_ & _ & _ & _ & Hthere).
  destruct (Hthere Hk Hw) as [Hret Hsync].
  split; [reflexivity|]. split; [exact Hk|]. split; [exact Hw|].
  split; [exact (Habsent eq_refl)|]. split; [exact Hret|exact Hsync].
Defined.

(** X4. Removing a key a second time returns [False] and changes nothing,
    whatever the first call did (even when its write failed). *)
Theorem remove_twice (key : Z) (s : State) :
  remove key (remove key s).2 = (Ret (VBool false), (remove key s).2).
Proof.
  rewrite (remove_eq key (remove key s).2).
  rewrite remove_queue, lookup_delete_eq.
  rewrite bool_decide_eq_false_2; [done|]. by intros [? ?].
Qed.

(** ** What the operations do to [next] *)

Lemma next_of_ext (q q' : store) :
  well_formed q → well_formed q' →
  (∀ k, eligible q k ↔ eligible q' k) →
  next_of q = next_of q'.
Proof.
  intros Hwf Hwf' Hel.
  destruct (next_of_spec q Hwf) as (res & -> & Hres).
  destruct (next_of_spec q' Hwf') as (res' & -> & Hres').
  f_equal.
  destruct res as [| |k| |]; try done; destruct res' as [| |k'| |]; try done.
  - destruct Hres' as [He _]. apply Hel in He. by destruct (Hres k').
  - destruct Hres as [He _]. apply Hel in He. by destruct (Hres' k).
  - destruct Hres as [He Hmin]. destruct Hres' as [He' Hmin'].
    f_equal. apply Z.le_antisymm.
    + apply Hmin. by apply Hel.
    + apply Hmin'. by apply Hel.
Qed.

Lemma next_of_le (q q' : store) k :
  well_formed q → well_formed q' →
  (∀ j, eligible q j → eligible q' j) →
  next_of q = Ret (VInt k) →
  ∃ k', next_of q' = Ret (VInt k') ∧ k' ≤ k.
Proof.
  intros Hwf Hwf' Hel Hnext.
  destruct (next_of_spec q Hwf) as (res & Hq & Hres).
  rewrite Hnext in Hq. injection Hq as <-. destruct Hres as [He _].
  destruct (next_of_spec q' Hwf') as (res' & -> & Hres').
  destruct res' as [| |k'| |]; try done.
  - by destruct (Hres' k); apply Hel.
  - exists k'. split; [done|]. apply Hres'. by apply Hel.
Qed.

Lemma well_formed_delete q key : well_formed q → well_formed (delete key q).
Proof.
  intros Hwf k r Hk. apply lookup_delete_Some in Hk as [_ Hk]. by apply (Hwf k).
Qed.

Lemma eligible_delete q key k :
  k ≠ key → eligible q k → eligible (delete key q) k.
Proof.
  intros Hne (r & Hr & Hst & Hd). exists r.
  split; [by rewrite lookup_delete_ne|]. split; [done|].
  destruct Hd as [Hs|Hd]; [by left|]. right.
  intros d rd Hin Hrd. apply lookup_delete_Some in Hrd as [_ Hrd].
  by apply (Hd d rd).
Qed.

(** X5. Removing a task never holds another one back: a dependency that
    is gone counts as satisfied. On a well-formed store, if [next] returns
    a key and some other key is removed, [next] afterwards returns a key
    again, and one that is not larger. *)
Theorem remove_never_delays (key k : Z) (s : State) :
  well_formed (queue s) →
  (next s).1 = Ret (VInt k) → key ≠ k →
  (∀ j, j ≠ key → eligible (queue s) j → eligible (queue (remove key s).2) j) ∧
  ∃ k', (next (remove key s).2).1 = Ret (VInt k') ∧ k' ≤ k.
Proof.
  intros Hwf Hnext Hne. rewrite !next_eq in *. cbn [fst] in *.
  rewrite remove_queue. split.
  - intros j Hj. by apply eligible_delete.
  - destruct (next_of_spec _ Hwf) as (res & Hq & Hres).
    rewrite Hnext in Hq. injection Hq as <-. destruct Hres as [He _].
    destruct (next_of_spec _ (well_formed_delete _ key Hwf))
      as (res' & -> & Hres').
    assert (eligible (delete key (queue s)) k) as He'.
    { apply eligible_delete; [done|done]. }
    destruct res' as [| |k'| |]; try done.
    + by destruct (Hres' k).
    + exists k'. split; [done|]. by apply Hres'.
Qed.

Lemma remove_never_delays_witness :
  well_formed (queue two_tasks) ∧
  (next two_tasks).1 = Ret (VInt 0) ∧
  ∃ k', (next (remove 1 two_tasks).2).1 = Ret (VInt k') ∧ k' ≤ 0.
Proof.
  assert (well_formed (queue two_tasks)) as Hwf.
  { apply (bool_decide_unpack _). vm_compute. reflexivity. }
  assert ((next two_tasks).1 = Ret (VInt 0)) as Hnext.
  { vm_compute. reflexivity. }
  assert (1 ≠ 0) as Hne by lia.
  split; [exact Hwf|]. split; [exact Hnext|].
  exact (proj2 (remove_never_delays 1 0 two_tasks Hwf Hnext Hne)).
Defined.

(** X6. Removing the one unfinished dependency that holds a queued task
    back unblocks that task: on a well-formed store, [_depd_ok] then
    answers [True] for it, the task is eligible, and [next] returns a key,
    that of the task or a smaller one. *)
Theorem remove_unblocks (key k : Z) (r : record) (l : list Z) (s : State) :
  well_formed (queue s) →
  queue s !! k = Some r → k ≠ key →
  r !! "status" = Some (VStr "queued") →
  r !! "depd" = Some (VList l) →
  (∀ d rd, d ∈ l → d ≠ key → queue s !! d = Some rd →
           rd !! "status" = Some (VStr "done")) →
  _depd_ok (queue (remove key s).2) k = Ret true ∧
  eligible (queue (remove key s).2) k ∧
  ∃ k', (next (remove key s).2).1 = Ret (VInt k') ∧ k' ≤ k.
Proof.
  intros Hwf Hk Hne Hst Hd Hdeps. rewrite next_eq, remove_queue. cbn [fst].
  assert (delete key (queue s) !! k = Some r) as Hk'
    by by rewrite lookup_delete_ne.
  assert (deps_satisfied (delete key (queue s)) r) as Hsat.
  { right. intros d rd Hin Hrd. unfold depd_keys in Hin. rewrite Hd in Hin.
    apply lookup_delete_Some in Hrd as [Hdk Hrd]. by apply (Hdeps d rd). }
  assert (eligible (delete key (queue s)) k) as Hel by by exists r.
  split; [|split; [done|]].
  - destruct (depd_ok_spec (delete key (queue s))) with (k := k) (r := r)
      as (b & -> & Hb); [|done|..].
    { intros k0 r0 H0. by apply (well_formed_delete _ key Hwf k0 r0 H0). }
    { unfold depd_iterable. by rewrite Hd. }
    f_equal. by apply Hb.
  - destruct (next_of_spec (delete key (queue s))) as (res & -> & Hres).
    { by apply well_formed_delete. }
    destruct res as [| |k'| |]; try done.
    + by destruct (Hres k).
    + exists k'. split; [done|]. by apply Hres.
Qed.

Lemma remove_unblocks_witness :
  well_formed (queue blocked) ∧
  queue blocked !! 1 = Some (entry "queued" [0]) ∧
  ¬ eligible (queue blocked) 1 ∧
  (next blocked).1 = Ret VNone ∧
  _depd_ok (queue (remove 0 blocked).2) 1 = Ret true ∧
  eligible (queue (remove 0 blocked).2) 1 ∧
  (next (remove 0 blocked).2).1 = Ret (VInt 1).
Proof.
  assert (well_formed (queue blocked)) as Hwf.
  { apply (bool_decide_unpack _). vm_compute. reflexivity. }
  assert (∀ d rd, d ∈ [0] → d ≠ 0 → queue blocked !! d = Some rd →
                  rd !! "status" = Some (VStr "done")) as Hdeps.
  { intros d rd Hin Hne. apply list_elem_of_singleton in Hin. lia. }
  assert (1 ≠ 0) as Hne by lia.
  pose proof (remove_unblocks 0 1 (entry "queued" [0]) [0] blocked Hwf
                eq_refl Hne eq_refl eq_refl Hdeps) as (Hok & Hel & _).
  split; [exact Hwf|]. split; [reflexivity|]. split.
  - intros (r & Hr & _ & [Hs|Hd]).
    + injection Hr as <-. vm_compute in Hs. discriminate.
    + injection Hr as <-.
      specialize (Hd 0 (entry "running" [-1]) (list_elem_of_here _ _) eq_refl).
      vm_compute in Hd. discriminate.
  - split; [vm_compute; reflexivity|]. split; [exact Hok|].
    split; [exact Hel|]. vm_compute. reflexivity.
Defined.

(** ** [clear] *)

Lemma is_finished_status r st :
  r !! "status" = Some st → is_finished r = py_in st finished.
Proof. unfold is_finished. by intros ->. Qed.

Lemma clear_body_eq key s :
  is_Some (queue s !! key) → has_status_at (queue s) key →
  clear_body key s = (Ret (), with_queue (clear_step (queue s) key) s).
Proof.
  intros [r Hr] Hst. destruct (Hst r Hr) as [st Hs].
  unfold clear_body, clear_step, queue_getitem, getitem. unfold_M.
  cbn -[py_in]. rewrite Hr. cbn -[py_in]. rewrite Hs. cbn -[py_in].
  rewrite (is_finished_status _ _ Hs).
  destruct (py_in st finished); [done|]. by rewrite with_queue_id.
Qed.

Lemma clear_step_lookup (m : store) key k :
  clear_step m key !! k =
    if decide (k = key)
    then r ← m !! k; if is_finished r then None else Some r
    else m !! k.
Proof.
  unfold clear_step. case_decide as Hk.
  - subst k. destruct (m !! key) as [r|] eqn:Hr; cbn; [|by rewrite Hr].
    destruct (is_finished r); [apply lookup_delete_eq|done].
  - destruct (m !! key) as [r|]; [|done].
    destruct (is_finished r); [by rewrite lookup_delete_ne|done].
Qed.

Lemma for_each_clear l s :
  NoDup l → all_have_status (queue s) →
  (∀ k, k ∈ l → is_Some (queue s !! k)) →
  for_each l clear_body s = (Ret (), with_queue (foldl clear_step (queue s) l) s).
Proof.
  revert s. induction l as [|x l IH]; intros s Hnd Hall Hin.
  { cbn. by rewrite with_queue_id. }
  apply NoDup_cons in Hnd as [Hx Hnd].
  cbn [for_each foldl]. unfold mbind, M_bind.
  rewrite clear_body_eq;
    [|apply Hin; by left|by apply all_have_status_at].
  rewrite IH; [by rewrite with_queue_with_queue|done| |].
  - intros k r. cbn. rewrite clear_step_lookup. case_decide.
    + destruct (queue s !! k) as [r'|] eqn:Hk; [|done]. cbn.
      destruct (is_finished r'); [done|]. intros [= <-]. by apply (Hall k).
    + apply Hall.
  - intros k Hk. cbn. rewrite clear_step_lookup.
    rewrite decide_False by (intros ->; done). apply Hin. by right.
Qed.

Lemma foldl_clear_step_lookup l (m : store) k :
  NoDup l →
  foldl clear_step m l !! k =
    if decide (k ∈ l)
    then r ← m !! k; if is_finished r then None else Some r
    else m !! k.
Proof.
  revert m. induction l as [|x l IH]; intros m Hnd.
  { cbn. case_decide as Hin; [|done]. by apply elem_of_nil in Hin. }
  apply NoDup_cons in Hnd as [Hx Hnd]. cbn [foldl]. rewrite IH by done.
  rewrite !clear_step_lookup.
  destruct (decide (k = x)) as [->|Hne].
  - rewrite decide_False by done. rewrite decide_True by by left. done.
  - destruct (decide (k ∈ l)) as [Hin|Hin].
    + rewrite decide_True; [done|by right].
    + rewrite decide_False; [done|]. intros [?|?]%elem_of_cons; done.
Qed.

Lemma unfinished_lookup (q : store) k :
  unfinished q !! k = r ← q !! k; if is_finished r then None else Some r.
Proof.
  unfold unfinished. rewrite map_lookup_filter.
  destruct (q !! k) as [r|]; cbn; [|done].
  destruct (is_finished r); by case_guard.
Qed.

Lemma NoDup_keys (q : store) : NoDup (keys q).
Proof. apply NoDup_fst_map_to_list. Qed.

Lemma clear_loop_eq s :
  all_have_status (queue s) →
  for_each (keys (queue s)) clear_body s
    = (Ret (), with_queue (unfinished (queue s)) s).
Proof.
  intros Hall. rewrite for_each_clear; [|apply NoDup_keys|done|].
  2:{ intros k. by rewrite elem_of_keys. }
  f_equal. f_equal. apply map_eq. intros k.
  rewrite foldl_clear_step_lookup by apply NoDup_keys.
  rewrite unfinished_lookup. case_decide as Hin; [done|].
  destruct (queue s !! k) as [r|] eqn:Hk; [|done].
  destruct Hin. apply elem_of_keys. by exists r.
Qed.

Lemma clear_eq s :
  all_have_status (queue s) →
  clear s = returning VNone (write (with_queue (unfinished (queue s)) s)).
Proof.
  intros Hall. unfold clear, returning. unfold mbind, M_bind, gets, mret, M_ret.
  rewrite (clear_loop_eq s Hall).
  by destruct (write _) as [[]?].
Qed.

Lemma for_each_clear_Ret_inv l s u s' :
  NoDup l → (∀ k, k ∈ l → is_Some (queue s !! k)) →
  for_each l clear_body s = (Ret u, s') →
  ∀ k, k ∈ l → has_status_at (queue s) k.
Proof.
  revert s. induction l as [|x l IH]; intros s Hnd Hdom Hret k Hin.
  { by apply elem_of_nil in Hin. }
  apply NoDup_cons in Hnd as [Hx Hnd].
  cbn [for_each] in Hret. apply bind_Ret_inv in Hret as ([] & s1 & Hbody & Hl).
  assert (has_status_at (queue s) x) as Hsx.
  { intros r Hr. unfold clear_body, queue_getitem, getitem in Hbody.
    apply bind_Ret_inv in Hbody as (q & ? & Hq & Hbody).
    unfold gets in Hq. injection Hq as <- <-.
    apply bind_Ret_inv in Hbody as (r' & ? & Hr' & Hbody).
    unfold lift in Hr'. rewrite Hr in Hr'. injection Hr' as <- <-.
    apply bind_Ret_inv in Hbody as (st & ? & Hst & _).
    unfold lift in Hst. unfold has_status.
    destruct (r !! "status"); [by eexists|]. by injection Hst. }
  apply elem_of_cons in Hin as [->|Hin]; [done|].
  assert (k ≠ x) as Hne by (intros ->; done).
  rewrite (clear_body_eq x s) in Hbody; [|apply Hdom; by left|done].
  injection Hbody as <-.
  intros r Hr.
  assert (∀ j, j ∈ l →
            is_Some (queue (with_queue (clear_step (queue s) x) s) !! j))
    as Hdom'.
  { intros j Hj. cbn. rewrite clear_step_lookup.
    rewrite decide_False by (intros ->; done). apply Hdom. by right. }
  apply (IH _ Hnd Hdom' Hl k Hin r).
  cbn. rewrite clear_step_lookup. by rewrite decide_False.
Qed.

Lemma clear_Ret_inv s v : (clear s).1 = Ret v → all_have_status (queue s).
Proof.
  intros Hret k r Hk.
  destruct (clear s) as [o s'] eqn:Hclear. cbn in Hret. subst o.
  unfold clear in Hclear.
  apply bind_Ret_inv in Hclear as (ks & s1 & Hks & Hclear).
  unfold gets in Hks. injection Hks as <- <-.
  apply bind_Ret_inv in Hclear as (u & s2 & Hloop & _).
  apply (for_each_clear_Ret_inv _ _ _ _ (NoDup_keys _)) with (k := k) in Hloop.
  - by apply Hloop.
  - intros j. by rewrite elem_of_keys.
  - apply elem_of_keys. by exists r.
Qed.

(** X7. [clear] returns, rather than raises, only when every record
    carries a status. Then the store it leaves holds exactly the records
    whose status is neither [done] nor [failed], unchanged and under their
    keys; the allocator stays where it was; and when the snapshot file can
    be written, [clear] returns [None] and the file holds the new store. *)
Theorem clear_keeps_unfinished (s : State) :
  next_key (clear s).2 = next_key s ∧
  ((∃ v, (clear s).1 = Ret v) → all_have_status (queue s)) ∧
  (all_have_status (queue s) →
   (∀ k r, queue (clear s).2 !! k = Some r ↔
           queue s !! k = Some r ∧ is_finished r = false) ∧
   (writable s → (clear s).1 = Ret VNone ∧ in_sync (clear s).2)).
Proof.
  split; [apply shrinks_clear|].
  split; [intros [v Hv]; by apply (clear_Ret_inv s v)|].
  intros Hall. rewrite (clear_eq s Hall). split.
  - intros k r. rewrite returning_write_queue. cbn.
    unfold unfinished. by rewrite map_lookup_filter_Some.
  - intros [Ho Hd]. rewrite returning_write_ok by done. split; [done|].
    unfold in_sync, after_write. cbn. by rewrite Hd.
Qed.

Lemma clear_keeps_unfinished_witness :
  all_have_status (queue mixed) ∧ writable mixed ∧
  (clear mixed).1 = Ret VNone ∧
  queue (clear mixed).2 !! 2 = Some (entry "queued" [-1]) ∧
  in_sync (clear mixed).2.
Proof.
  assert (all_have_status (queue mixed)) as Hall.
  { apply (bool_decide_unpack _). vm_compute. reflexivity. }
  assert (writable mixed) as Hw by (by split).
  destruct (clear_keeps_unfinished mixed) as (_ & _ & Hok).
  destruct (Hok Hall) as [Hlook Hwrite].
  destruct (Hwrite Hw) as [Hret Hsync].
  split; [exact Hall|]. split; [exact Hw|]. split; [exact Hret|].
  split; [|exact Hsync].
  apply Hlook. split; reflexivity.
Defined.

Lemma clear_queue s :
  all_have_status (queue s) → queue (clear s).2 = unfinished (queue s).
Proof. intros Hall. by rewrite (clear_eq s Hall), returning_write_queue. Qed.

Lemma well_formed_unfinished q : well_formed q → well_formed (unfinished q).
Proof.
  intros Hwf k r Hk. apply map_lookup_filter_Some in Hk as [Hk _].
  by apply (Hwf k).
Qed.

Lemma is_finished_done r :
  r !! "status" = Some (VStr "done") → is_finished r = true.
Proof. intros Hst. by rewrite (is_finished_status _ _ Hst). Qed.

Lemma is_finished_queued r :
  r !! "status" = Some (VStr "queued") → is_finished r = false.
Proof. intros Hst. by rewrite (is_finished_status _ _ Hst). Qed.

Lemma eligible_unfinished q k : eligible q k → eligible (unfinished q) k.
Proof.
  intros (r & Hr & Hst & Hd). exists r. split.
  { apply map_lookup_filter_Some. split; [done|]. by apply is_finished_queued. }
  split; [done|]. destruct Hd as [Hs|Hd]; [by left|]. right.
  intros d rd Hin Hrd. apply map_lookup_filter_Some in Hrd as [Hrd Hnf].
  cbn in Hnf. specialize (Hd d rd Hin Hrd).
  by rewrite (is_finished_done _ Hd) in Hnf.
Qed.

(** X8. [clear] never holds a task back, and it frees the tasks that wait
    for a failed one. On a well-formed store every eligible task is still
    eligible after [clear], so when [next] returned a key it returns one
    again afterwards, not a larger one; and a queued task whose
    dependencies, as far as they are in the store, are all done or failed
    is eligible after [clear]. *)
Theorem clear_never_delays (s : State) :
  well_formed (queue s) →
  (∀ k, eligible (queue s) k → eligible (queue (clear s).2) k) ∧
  (∀ k, (next s).1 = Ret (VInt k) →
        ∃ k', (next (clear s).2).1 = Ret (VInt k') ∧ k' ≤ k) ∧
  (∀ k r l,
     queue s !! k = Some r →
     r !! "status" = Some (VStr "queued") →
     r !! "depd" = Some (VList l) →
     (∀ d rd, d ∈ l → queue s !! d = Some rd → is_finished rd = true) →
     eligible (queue (clear s).2) k).
Proof.
  intros Hwf. rewrite !next_eq. cbn [fst].
  rewrite (clear_queue s (well_formed_status _ Hwf)).
  split; [intros k; apply eligible_unfinished|]. split.
  - intros k Hnext.
    apply (next_of_le (queue s) _ k Hwf (well_formed_unfinished _ Hwf));
      [|done].
    intros j. apply eligible_unfinished.
  - intros k r l Hk Hst Hd Hdeps. exists r. split.
    { apply map_lookup_filter_Some. split; [done|]. by apply is_finished_queued. }
    split; [done|]. right. intros d rd Hin Hrd.
    unfold depd_keys in Hin. rewrite Hd in Hin.
    apply map_lookup_filter_Some in Hrd as [Hrd Hnf]. cbn in Hnf.
    by rewrite (Hdeps d rd Hin Hrd) in Hnf.
Qed.

Lemma clear_never_delays_witness :
  well_formed (queue blocked_by_failure) ∧
  (next blocked_by_failure).1 = Ret VNone ∧
  eligible (queue (clear blocked_by_failure).2) 1 ∧
  well_formed (queue two_tasks) ∧
  ∃ k', (next (clear two_tasks).2).1 = Ret (VInt k') ∧ k' ≤ 0.
Proof.
  assert (well_formed (queue blocked_by_failure)) as Hwf.
  { apply (bool_decide_unpack _). vm_compute. reflexivity. }
  assert (well_formed (queue two_tasks)) as Hwf2.
  { apply (bool_decide_unpack _). vm_compute. reflexivity. }
  destruct (clear_never_delays blocked_by_failure Hwf) as (_ & _ & Hfree).
  destruct (clear_never_delays two_tasks Hwf2) as (_ & Hnext & _).
  split; [exact Hwf|]. split; [vm_compute; reflexivity|]. split.
  - apply (Hfree 1 (entry "queued" [0]) [0]);
      [reflexivity|reflexivity|reflexivity|].
    intros d rd Hin Hrd. apply list_elem_of_singleton in Hin. subst d.
    injection Hrd as <-. reflexivity.
  - split; [exact Hwf2|]. apply Hnext. vm_compute. reflexivity.
Defined.

(** ** [add_new] and [next] *)

Lemma well_formed_insert_stashed q k r :
  well_formed q → r !! "status" = Some (VStr "stashed") →
  well_formed (<[k := r]> q).
Proof.
  intros Hwf Hst j r' Hj. destruct (decide (j = k)) as [->|Hne].
  - rewrite lookup_insert_eq in Hj. injection Hj as <-.
    split; [by eexists|]. rewrite Hst. discriminate.
  - rewrite lookup_insert_ne in Hj by done. by apply (Hwf j).
Qed.

Lemma new_entry_status command :
  new_entry command !! "status" = Some (VStr "stashed").
Proof.
  unfold new_entry. rewrite !lookup_insert_ne by done. apply lookup_insert_eq.
Qed.

Lemma eligible_insert_stashed q n r k :
  q !! n = None → r !! "status" = Some (VStr "stashed") →
  not_depended_on q n →
  eligible (<[n := r]> q) k ↔ eligible q k.
Proof.
  intros Hn Hst Hnd. split.
  - intros (r' & Hr' & Hq & Hd).
    destruct (decide (k = n)) as [->|Hne].
    { rewrite lookup_insert_eq in Hr'. injection Hr' as <-. congruence. }
    rewrite lookup_insert_ne in Hr' by done.
    exists r'. split; [done|]. split; [done|].
    destruct Hd as [Hs|Hd]; [by left|]. right. intros d rd Hin Hrd.
    apply (Hd d rd Hin). rewrite lookup_insert_ne; [done|].
    intros <-. by apply (Hnd k r' Hr').
  - intros (r' & Hr' & Hq & Hd).
    assert (k ≠ n) as Hne by (intros ->; congruence).
    exists r'. split; [by rewrite lookup_insert_ne|]. split; [done|].
    destruct Hd as [Hs|Hd]; [by left|]. right. intros d rd Hin Hrd.
    apply (Hd d rd Hin). rewrite lookup_insert_ne in Hrd; [done|].
    intros <-. by apply (Hnd k r' Hr').
Qed.

(** X9. Adding a command does not change what [next] returns: the new
    record is stashed, not queued. This holds on a well-formed store whose
    allocator points at an unused key that no record names as a
    dependency. *)
Theorem add_new_leaves_next (command : record) (s : State) :
  well_formed (queue s) →
  queue s !! next_key s = None →
  not_depended_on (queue s) (next_key s) →
  (next (add_new command s).2).1 = (next s).1 ∧
  ¬ eligible (queue (add_new command s).2) (next_key s).
Proof.
  intros Hwf Hfresh Hnd. rewrite !next_eq. cbn [fst].
  rewrite add_new_queue. split.
  - apply next_of_ext; [|done|].
    + by apply well_formed_insert_stashed, new_entry_status.
    + intros k. apply eligible_insert_stashed; [done| |done].
      apply new_entry_status.
  - intros (r & Hr & Hq & _). rewrite lookup_insert_eq in Hr.
    injection Hr as <-. rewrite new_entry_status in Hq. discriminate.
Qed.

Lemma add_new_leaves_next_witness :
  well_formed (queue two_tasks) ∧
  queue two_tasks !! next_key two_tasks = None ∧
  not_depended_on (queue two_tasks) (next_key two_tasks) ∧
  (next (add_new (task "ls" "/") two_tasks).2).1 = (next two_tasks).1.
Proof.
  assert (well_formed (queue two_tasks)) as Hwf.
  { apply (bool_decide_unpack _). vm_compute. reflexivity. }
  assert (not_depended_on (queue two_tasks) (next_key two_tasks)) as Hnd.
  { apply (bool_decide_unpack _). vm_compute. reflexivity. }
  split; [exact Hwf|]. split; [reflexivity|]. split; [exact Hnd|].
  exact (proj1 (add_new_leaves_next (task "ls" "/") two_tasks Hwf eq_refl Hnd)).
Defined.

(** Where a record does name the key the allocator points at, the new,
    stashed record holds it back. *)
Example add_new_blocks_dangling_dependency :
  (next waits_for_future).1 = Ret (VInt 0) ∧
  (next (add_new (task "ls" "/") waits_for_future).2).1 = Ret VNone.
Proof. vm_compute. split; reflexivity. Qed.

(** ** Starting the queue *)

Lemma cleaned_status r :
  has_status r →
  ∃ st, cleaned r !! "status" = Some st ∧ st ∉ in_flight.
Proof.
  intros [st Hst]. unfold cleaned, was_in_flight. rewrite Hst.
  destruct (py_in st in_flight) eqn:Hin.
  - exists (VStr "queued"). split.
    + unfold requeue. by rewrite !lookup_insert_ne, lookup_insert_eq by done.
    + intros H. apply py_in_true in H. discriminate.
  - exists st. split; [done|]. intros H. apply py_in_true in H. congruence.
Qed.

Lemma cleaned_idemp r : cleaned (cleaned r) = cleaned r.
Proof.
  unfold cleaned at 1. unfold was_in_flight.
  destruct (cleaned r !! "status") as [st|] eqn:Hst; [|done].
  destruct (py_in st in_flight) eqn:Hin; [|done].
  exfalso. apply py_in_true in Hin.
  unfold cleaned, was_in_flight in Hst.
  destruct (r !! "status") as [st0|] eqn:Hst0.
  - destruct (py_in st0 in_flight) eqn:Hin0.
    + unfold requeue in Hst.
      rewrite !lookup_insert_ne, lookup_insert_eq in Hst by done.
      injection Hst as <-. apply py_in_true in Hin. discriminate.
    + rewrite Hst0 in Hst. injection Hst as <-.
      apply py_in_true in Hin. congruence.
  - congruence.
Qed.

Lemma init_eq s :
  (read s).1 = Ret VNone →
  all_have_status (queue (read s).2) →
  ∃ n, __init__ s =
         (Ret VNone,
          with_next_key n (with_queue (cleaned <$> queue (read s).2) (read s).2)) ∧
       (∀ k, is_Some (queue (read s).2 !! k) → k < n) ∧
       (queue (read s).2 = ∅ → n = 0) ∧
       (queue (read s).2 ≠ ∅ → ∃ k, is_Some (queue (read s).2 !! k) ∧ n = k + 1).
Proof.
  intros Hread Hall. rewrite init_is_read_clean_allocate.
  unfold mbind at 1, M_bind at 1.
  destruct (read s) as [o s1] eqn:Hs1. cbn in Hread, Hall |- *. subst o.
  unfold mbind at 1, M_bind at 1. rewrite (clean_eq s1 Hall).
  destruct (init_next_key_spec (with_queue (cleaned <$> queue s1) s1))
    as (n & -> & Hbelow & Hempty & Hmax).
  cbn [queue with_queue] in Hbelow, Hempty, Hmax.
  exists n. split; [done|]. split; [|split].
  - intros k Hk. apply Hbelow. rewrite lookup_fmap. by apply fmap_is_Some.
  - intros He. apply Hempty. rewrite He. apply fmap_empty.
  - intros Hne. destruct Hmax as (k & Hk & ->).
    { intros He. apply Hne. by apply fmap_empty_inv in He. }
    exists k. split; [|done].
    rewrite lookup_fmap in Hk. by apply fmap_is_Some in Hk.
Qed.

(** What [read] raises leaves [__init__]. *)
Lemma init_raises_with_read s e :
  (read s).1 = Raise e → __init__ s = (Raise e, (read s).2).
Proof.
  intros Hread. rewrite init_is_read_clean_allocate.
  unfold mbind at 1, M_bind at 1.
  destruct (read s) as [o s1]. cbn in Hread |- *. by subst o.
Qed.

(** X10. What [__init__] makes of the snapshot file. Without a file it
    starts from the empty store with [next_key = 0]. With a file that does
    not unpickle it does the same, having deleted the file, when
    [os.remove] succeeds; when [os.remove] raises, so does [__init__], and
    the file stays. With a file that cannot be opened for reading it
    raises at once. With a good file whose records all carry a status it
    loads the store, requeues what was in flight, leaves the file as it
    is, and sets [next_key] above every key. With a good file one of whose
    records has no status it raises: the queue cannot be constructed. *)
Theorem init_from_snapshot (s : State) :
  (snapshot s = None →
   __init__ s = (Ret VNone, with_next_key 0 (with_queue ∅ s))) ∧
  (∀ bytes, snapshot s = Some (Corrupt bytes) → remove_fails s = false →
   (__init__ s).1 = Ret VNone ∧ queue (__init__ s).2 = ∅ ∧
   next_key (__init__ s).2 = 0 ∧ snapshot (__init__ s).2 = None) ∧
  (∀ bytes, snapshot s = Some (Corrupt bytes) → remove_fails s = true →
   (__init__ s).1 = Raise OSError ∧
   snapshot (__init__ s).2 = snapshot s ∧ queue (__init__ s).2 = queue s) ∧
  (snapshot s = Some Unreadable → __init__ s = (Raise OSError, s)) ∧
  (∀ q, snapshot s = Some (Pickled q) → all_have_status q →
   (__init__ s).1 = Ret VNone ∧
   queue (__init__ s).2 = cleaned <$> q ∧
   snapshot (__init__ s).2 = snapshot s ∧ console (__init__ s).2 = console s ∧
   keys_below (__init__ s).2) ∧
  (∀ q, snapshot s = Some (Pickled q) → ¬ all_have_status q →
   ∃ e, (__init__ s).1 = Raise e).
Proof.
  split; [|split; [|split; [|split; [|split]]]].
  - intros Hs. destruct (init_eq s) as (n & Heq & _ & Hempty & _).
    { by rewrite read_eq, Hs. }
    { rewrite read_eq, Hs. cbn. by intros k r ?. }
    rewrite read_eq, Hs in Heq, Hempty. cbn in Heq, Hempty.
    rewrite Heq, (Hempty eq_refl), fmap_empty.
    by rewrite with_queue_with_queue.
  - intros bytes Hs Hrm. destruct (init_eq s) as (n & Heq & _ & Hempty & _).
    { by rewrite read_eq, Hs, Hrm. }
    { rewrite read_eq, Hs, Hrm. cbn. by intros k r ?. }
    rewrite read_eq, Hs, Hrm in Heq, Hempty. cbn in Heq, Hempty.
    rewrite Heq, (Hempty eq_refl). cbn. by rewrite fmap_empty.
  - intros bytes Hs Hrm.
    rewrite (init_raises_with_read s OSError) by by rewrite read_eq, Hs, Hrm.
    rewrite read_eq, Hs, Hrm. by cbn.
  - intros Hs.
    rewrite (init_raises_with_read s OSError) by by rewrite read_eq, Hs.
    by rewrite read_eq, Hs.
  - intros q Hs Hall. destruct (init_eq s) as (n & Heq & Hbelow & _).
    { by rewrite read_eq, Hs. }
    { by rewrite read_eq, Hs. }
    rewrite read_eq, Hs in Heq, Hbelow. cbn in Heq, Hbelow.
    rewrite Heq.
    cbn [fst snd queue next_key snapshot console with_queue with_next_key].
    split; [done|]. split; [done|]. split; [done|]. split; [done|].
    intros k Hk.
    cbn [queue next_key with_queue with_next_key] in Hk |- *.
    rewrite lookup_fmap in Hk. apply fmap_is_Some in Hk. by apply Hbelow.
  - intros q Hs Hnot.
    destruct (__init__ s) as [[v|e] s'] eqn:Hinit; [|by exists e].
    exfalso. apply Hnot.
    rewrite init_is_read_clean_allocate in Hinit.
    apply bind_Ret_inv in Hinit as (? & s1 & Hread & Hinit).
    apply bind_Ret_inv in Hinit as (v2 & s2 & Hclean & _).
    rewrite read_eq, Hs in Hread. injection Hread as _ <-.
    apply (clean_Ret_inv (with_queue q s) v2). by rewrite Hclean.
Qed.

Lemma init_from_snapshot_witness :
  snapshot empty_state = None ∧
  snapshot corrupt_snapshot = Some (Corrupt [Byte.x00; Byte.xff]) ∧
  remove_fails corrupt_snapshot = false ∧
  queue (__init__ corrupt_snapshot).2 = ∅ ∧
  snapshot (__init__ corrupt_snapshot).2 = None ∧
  snapshot undeletable = Some (Corrupt [Byte.x00; Byte.xff]) ∧
  remove_fails undeletable = true ∧
  (__init__ undeletable).1 = Raise OSError ∧
  snapshot unreadable = Some Unreadable ∧
  __init__ unreadable = (Raise OSError, unreadable) ∧
  all_have_status (queue two_tasks) ∧
  queue (__init__ saved_snapshot).2 = cleaned <$> queue two_tasks ∧
  ¬ all_have_status {[ 0 := task "ls" "/" ]} ∧
  ∃ e, (__init__ broken_snapshot).1 = Raise e.
Proof.
  assert (all_have_status (queue two_tasks)) as Hall.
  { apply (bool_decide_unpack _). vm_compute. reflexivity. }
  assert (¬ all_have_status ({[ 0 := task "ls" "/" ]} : store)) as Hnot.
  { intros H. destruct (H 0 (task "ls" "/") eq_refl) as [st Hst].
    vm_compute in Hst. discriminate. }
  destruct (init_from_snapshot corrupt_snapshot) as (_ & Hcorrupt & _).
  destruct (init_from_snapshot undeletable) as (_ & _ & Hstuck & _).
  destruct (init_from_snapshot unreadable) as (_ & _ & _ & Hlocked & _).
  destruct (init_from_snapshot saved_snapshot) as (_ & _ & _ & _ & Hgood & _).
  destruct (init_from_snapshot broken_snapshot) as (_ & _ & _ & _ & _ & Hbad).
  split; [reflexivity|]. split; [reflexivity|]. split; [reflexivity|].
  split; [exact (proj1 (proj2 (Hcorrupt _ eq_refl eq_refl)))|].
  split; [exact (proj2 (proj2 (proj2 (Hcorrupt _ eq_refl eq_refl))))|].
  split; [reflexivity|]. split; [reflexivity|].
  split; [exact (proj1 (Hstuck _ eq_refl eq_refl))|].
  split; [reflexivity|]. split; [exact (Hlocked eq_refl)|].
  split; [exact Hall|].
  split; [exact (proj1 (proj2 (Hgood _ eq_refl Hall)))|].
  split; [exact Hnot|]. exact (Hbad _ eq_refl Hnot).
Defined.

(** X11. After [__init__] every record carries a status and none is
    [paused], [running], [stopping] or [killing]; a further [clean] finds
    nothing to do. *)
Theorem init_leaves_nothing_in_flight (s : State) (v : value) :
  (__init__ s).1 = Ret v →
  (∀ k r, queue (__init__ s).2 !! k = Some r →
          ∃ st, r !! "status" = Some st ∧ st ∉ in_flight) ∧
  clean (__init__ s).2 = (Ret VNone, (__init__ s).2).
Proof.
  intros Hret.
  destruct (__init__ s) as [o s'] eqn:Hinit. cbn in Hret. subst o. cbn.
  rewrite init_is_read_clean_allocate in Hinit.
  apply bind_Ret_inv in Hinit as (? & s1 & _ & Hinit).
  apply bind_Ret_inv in Hinit as (v2 & s2 & Hclean & Hinit).
  assert (all_have_status (queue s1)) as Hall.
  { apply (clean_Ret_inv _ v2). by rewrite Hclean. }
  rewrite (clean_eq s1 Hall) in Hclean. injection Hclean as _ <-.
  destruct (init_next_key_spec (with_queue (cleaned <$> queue s1) s1))
    as (n & Heq & _).
  rewrite Heq in Hinit. injection Hinit as _ <-. cbn.
  assert (∀ k r, (cleaned <$> queue s1) !! k = Some r →
                 ∃ st, r !! "status" = Some st ∧ st ∉ in_flight) as Hst.
  { intros k r Hk. rewrite lookup_fmap in Hk.
    destruct (queue s1 !! k) as [r0|] eqn:Hr0; [|done].
    injection Hk as <-. apply cleaned_status. by apply (Hall k). }
  split; [exact Hst|].
  rewrite clean_eq.
  2:{ intros k r Hk. cbn in Hk. destruct (Hst k r Hk) as (st & ? & _).
      by exists st. }
  f_equal. destruct s1 as [q1 n1 f1 o1 d1 c1 rf1].
  unfold with_queue, with_next_key.
  cbn [queue next_key snapshot open_fails dump_fails console]. f_equal.
  rewrite <-map_fmap_compose.
  apply map_fmap_ext. intros k r _. apply cleaned_idemp.
Qed.

Lemma init_leaves_nothing_in_flight_witness :
  (__init__ (with_snapshot (Some (Pickled (queue crashed))) empty_state)).1
    = Ret VNone ∧
  clean (__init__ (with_snapshot (Some (Pickled (queue crashed))) empty_state)).2
    = (Ret VNone,
       (__init__ (with_snapshot (Some (Pickled (queue crashed))) empty_state)).2).
Proof.
  assert ((__init__ (with_snapshot (Some (Pickled (queue crashed))) empty_state)).1
          = Ret VNone) as Hret.
  { vm_compute. reflexivity. }
  split; [exact Hret|].
  exact (proj2 (init_leaves_nothing_in_flight _ _ Hret)).
Defined.

(** ** The snapshot file *)

Lemma in_sync_after_write s : dump_fails s = None → in_sync (after_write s).
Proof. intros Hd. unfold in_sync, after_write. by rewrite Hd. Qed.

Lemma writable_after_write s : writable s → writable (after_write s).
Proof.
  intros [Ho Hd]. unfold writable, after_write. by rewrite Hd.
Qed.

Lemma write_writable s :
  writable s → write s = (Ret VNone, after_write s) ∧ in_sync (after_write s).
Proof.
  intros [Ho Hd]. rewrite write_eq, Ho. split; [done|].
  by apply in_sync_after_write.
Qed.

(** X12. Loading what was saved. When the snapshot file can be written
    and every record carries a status, a [write] followed by a fresh
    [__init__] gives back the store, with what was in flight requeued. The
    allocator is not saved: it is computed anew from the keys that are
    left, so it is never above the old one, and it is below it when the
    last key handed out is no longer in the store; that key will be handed
    out again. *)
Theorem reload_after_save (s : State) :
  writable s → all_have_status (queue s) → keys_below s → 0 ≤ next_key s →
  (__init__ (write s).2).1 = Ret VNone ∧
  queue (__init__ (write s).2).2 = cleaned <$> queue s ∧
  next_key (__init__ (write s).2).2 ≤ next_key s ∧
  (0 < next_key s → queue s !! (next_key s - 1) = None →
   next_key (__init__ (write s).2).2 < next_key s).
Proof.
  intros Hw Hall Hb Hpos.
  destruct (write_writable s Hw) as [-> Hsync]. cbn [snd].
  assert (read (after_write s) = (Ret VNone, after_write s)) as Hread.
  { rewrite read_eq, Hsync. by rewrite with_queue_id. }
  destruct (init_eq (after_write s)) as (n & -> & _ & Hempty & Hmax).
  { by rewrite Hread. }
  { rewrite Hread. cbn. by rewrite after_write_queue. }
  rewrite Hread in Hempty, Hmax |- *. cbn [fst snd] in *.
  rewrite after_write_queue in *.
  cbn [queue next_key with_queue with_next_key].
  split; [done|]. split; [done|].
  destruct (decide (queue s = ∅)) as [He|Hne].
  - rewrite (Hempty He). split; [done|]. by intros.
  - destruct (Hmax Hne) as (k & Hk & ->).
    pose proof (Hb k Hk). split; [lia|]. intros _ Htop.
    assert (k ≠ next_key s - 1).
    { intros ->. rewrite Htop in Hk. by destruct Hk. }
    lia.
Qed.

Lemma reload_after_save_witness :
  writable top_removed ∧ all_have_status (queue top_removed) ∧
  keys_below top_removed ∧
  queue top_removed !! (next_key top_removed - 1) = None ∧
  next_key (__init__ (write top_removed).2).2 < next_key top_removed.
Proof.
  assert (writable top_removed) as Hw by (by split).
  assert (all_have_status (queue top_removed)) as Hall.
  { apply (bool_decide_unpack _). vm_compute. reflexivity. }
  assert (keys_below top_removed) as Hb.
  { apply keys_below_Forall, (bool_decide_unpack _). vm_compute. reflexivity. }
  assert (0 ≤ next_key top_removed) as Hpos by (cbn; lia).
  assert (0 < next_key top_removed) as Hpos' by (cbn; lia).
  destruct (reload_after_save top_removed Hw Hall Hb Hpos) as (_ & _ & _ & Hlt).
  split; [exact Hw|]. split; [exact Hall|]. split; [exact Hb|].
  split; [reflexivity|]. exact (Hlt Hpos' eq_refl).
Defined.

(** X13. Every operation that changes the store writes it out, except
    [clean]. When the snapshot file can be written and holds the store in
    memory, then after any request other than [clean] that returns, it
    holds the store in memory again, and it can still be written. *)
Theorem mutators_keep_snapshot_in_sync (o : op) (s : State) (v : value) :
  writable s → in_sync s → o ≠ OpClean →
  (run_op o s).1 = Ret v →
  in_sync (run_op o s).2 ∧ writable (run_op o s).2.
Proof.
  intros Hw Hsync Ho Hret. pose proof Hw as [Hopen Hdump].
  destruct o; cbn [run_op] in *; try done.
  - rewrite add_new_eq, returning_write_ok by done. cbn [snd]. split.
    + by apply in_sync_after_write.
    + by apply writable_after_write.
  - rewrite remove_eq. case_bool_decide; [|done].
    rewrite returning_write_ok by done. cbn [snd]. split.
    + by apply in_sync_after_write.
    + by apply writable_after_write.
  - rewrite restart_eq in Hret |- *.
    destruct (queue s !! key) as [r|]; [|done].
    destruct (r !! "status") as [st|]; [|done].
    destruct (py_in st _); [|done].
    destruct (r !! "command") as [c|]; [|done].
    destruct (r !! "path") as [p|]; [|done].
    rewrite add_new_eq, returning_write_ok by done.
    assert (writable (after_write (added {[ "command" := c; "path" := p ]} s)))
      as Hw' by (by apply writable_after_write).
    rewrite returning_write_ok by apply Hw'. cbn [snd]. split.
    + apply in_sync_after_write, Hw'.
    + by apply writable_after_write.
  - rewrite switch_eq in Hret |- *.
    destruct (queue s !! first) as [r1|]; [|done].
    destruct (queue s !! second) as [r2|]; [|done].
    destruct (r1 !! "status") as [st1|]; [|done].
    destruct (py_in st1 _); [|done].
    destruct (r2 !! "status") as [st2|]; [|done].
    destruct (py_in st2 _); [|done].
    rewrite returning_write_ok by done. cbn [snd]. split.
    + by apply in_sync_after_write.
    + by apply writable_after_write.
  - assert (all_have_status (queue s)) as Hall by (by apply (clear_Ret_inv s v)).
    rewrite (clear_eq s Hall), returning_write_ok by done. cbn [snd]. split.
    + by apply in_sync_after_write.
    + by apply writable_after_write.
  - unfold reset. unfold_M. cbn -[write].
    rewrite write_eq. cbn [open_fails with_next_key with_queue]. rewrite Hopen.
    cbn [snd]. split.
    + by apply in_sync_after_write.
    + by apply writable_after_write.
Qed.

Lemma mutators_keep_snapshot_in_sync_witness :
  writable (write two_tasks).2 ∧ in_sync (write two_tasks).2 ∧
  (run_op (OpSwitch 0 1) (write two_tasks).2).1 = Ret (VBool true) ∧
  in_sync (run_op (OpSwitch 0 1) (write two_tasks).2).2.
Proof.
  assert (writable (write two_tasks).2) as Hw by (by split).
  assert (in_sync (write two_tasks).2) as Hsync by reflexivity.
  assert (OpSwitch 0 1 ≠ OpClean) as Ho by discriminate.
  assert ((run_op (OpSwitch 0 1) (write two_tasks).2).1 = Ret (VBool true))
    as Hret by (vm_compute; reflexivity).
  split; [exact Hw|]. split; [exact Hsync|]. split; [exact Hret|].
  exact (proj1 (mutators_keep_snapshot_in_sync _ _ _ Hw Hsync Ho Hret)).
Defined.

(** [clean] is the exception: it requeues in memory and leaves the file
    behind. *)
Example clean_leaves_snapshot_stale :
  in_sync (write crashed).2 ∧ ¬ in_sync (clean (write crashed).2).2.
Proof.
  split; [reflexivity|]. unfold in_sync. intros H.
  destruct (same_outside_clean (write crashed).2) as (_ & Hsnap & _).
  rewrite Hsnap in H.
  change (snapshot (write crashed).2) with (Some (Pickled (queue crashed))) in H.
  apply (f_equal (λ f, match f with
                       | Some (Pickled q) => q !! 0 ≫= λ r : record, r !! "status"
                       | _ => None
                       end)) in H.
  vm_compute in H. discriminate.
Qed.

Lemma after_write_remove_fails s :
  remove_fails (after_write s) = remove_fails s.
Proof. unfold after_write. by destruct (dump_fails s). Qed.

(** X14. A [pickle.dump] that fails costs the saved queue. [write] has
    truncated the file by then, so what is left does not unpickle:
    [write] itself returns with a warning and the store in memory is
    intact. The next [__init__] finds a file it cannot load: when
    [os.remove] succeeds it deletes the file and starts from the empty
    store, and when [os.remove] raises it raises too and the file stays. *)
Theorem failed_dump_loses_snapshot (s : State) (written : list Byte.byte) :
  open_fails s = false → dump_fails s = Some written →
  (write s).1 = Ret VNone ∧ queue (write s).2 = queue s ∧
  snapshot (write s).2 = Some (Corrupt written) ∧
  (remove_fails s = false →
   (__init__ (write s).2).1 = Ret VNone ∧
   queue (__init__ (write s).2).2 = ∅ ∧
   next_key (__init__ (write s).2).2 = 0 ∧
   snapshot (__init__ (write s).2).2 = None) ∧
  (remove_fails s = true →
   (__init__ (write s).2).1 = Raise OSError ∧
   snapshot (__init__ (write s).2).2 = Some (Corrupt written)).
Proof.
  intros Ho Hd. rewrite write_eq, Ho. cbn [fst snd].
  rewrite after_write_queue. split; [done|]. split; [done|].
  assert (snapshot (after_write s) = Some (Corrupt written)) as Hsnap.
  { unfold after_write. by rewrite Hd. }
  split; [done|].
  pose proof (after_write_remove_fails s) as Hrf. split.
  - intros Hrm. rewrite Hrm in Hrf.
    destruct (init_eq (after_write s)) as (n & Heq & _ & Hempty & _).
    { by rewrite read_eq, Hsnap, Hrf. }
    { rewrite read_eq, Hsnap, Hrf. cbn. by intros k r ?. }
    rewrite read_eq, Hsnap, Hrf in Heq, Hempty. cbn in Heq, Hempty.
    rewrite Heq, (Hempty eq_refl). cbn. by rewrite fmap_empty.
  - intros Hrm. rewrite Hrm in Hrf.
    rewrite (init_raises_with_read (after_write s) OSError)
      by by rewrite read_eq, Hsnap, Hrf.
    rewrite read_eq, Hsnap, Hrf. by cbn.
Qed.

Lemma failed_dump_loses_snapshot_witness :
  open_fails dump_failing = false ∧ dump_fails dump_failing = Some [Byte.x80] ∧
  remove_fails dump_failing = false ∧
  queue (write dump_failing).2 = queue dump_failing ∧
  queue (__init__ (write dump_failing).2).2 = ∅.
Proof.
  destruct (failed_dump_loses_snapshot dump_failing [Byte.x80] eq_refl eq_refl)
    as (_ & Hq & _ & Hlost & _).
  split; [reflexivity|]. split; [reflexivity|]. split; [reflexivity|].
  split; [exact Hq|exact (proj1 (proj2 (Hlost eq_refl)))].
Defined.

(** ** [switch] *)

(** X15. [switch] does not care about the order of its two keys: when
    the records under them, if there are any, carry a status, [switch a b]
    and [switch b a] return the same and leave the same state. *)
Theorem switch_symmetric (first second : Z) (s : State) :
  has_status_at (queue s) first → has_status_at (queue s) second →
  switch first second s = switch second first s.
Proof.
  intros Hfirst Hsecond. rewrite !switch_eq.
  destruct (queue s !! first) as [r1|] eqn:H1;
    destruct (queue s !! second) as [r2|] eqn:H2; try done.
  destruct (Hfirst _ H1) as [st1 Hst1]. destruct (Hsecond _ H2) as [st2 Hst2].
  rewrite Hst1, Hst2.
  destruct (py_in st1 allowed_states), (py_in st2 allowed_states); try done.
  f_equal. f_equal. f_equal.
  destruct (decide (first = second)) as [->|Hne].
  - rewrite H1 in H2. by injection H2 as ->.
  - by apply insert_insert_ne.
Qed.

Lemma switch_symmetric_witness :
  has_status_at (queue two_tasks) 0 ∧ has_status_at (queue two_tasks) 1 ∧
  switch 0 1 two_tasks = switch 1 0 two_tasks.
Proof.
  assert (all_have_status (queue two_tasks)) as Hall.
  { apply (bool_decide_unpack _). vm_compute. reflexivity. }
  split; [exact (all_have_status_at _ 0 Hall)|].
  split; [exact (all_have_status_at _ 1 Hall)|].
  exact (switch_symmetric 0 1 two_tasks (all_have_status_at _ 0 Hall)
           (all_have_status_at _ 1 Hall)).
Defined.

(** ** [__len__] *)

(** X16. [__len__] counts the records and changes nothing. Adding a
    command makes the queue one longer when the allocator points at an
    unused key, and leaves its length alone when that key was taken (the
    record there is replaced); removing a key that is there makes it one
    shorter. *)
Theorem len_counts_records (s : State) :
  __len__ s = (Ret (VInt (Z.of_nat (size (queue s)))), s) ∧
  (∀ command,
     queue s !! next_key s = None →
     (__len__ (add_new command s).2).1
       = Ret (VInt (Z.of_nat (size (queue s)) + 1))) ∧
  (∀ command,
     is_Some (queue s !! next_key s) →
     (__len__ (add_new command s).2).1 = (__len__ s).1) ∧
  (∀ key,
     is_Some (queue s !! key) →
     (__len__ (remove key s).2).1
       = Ret (VInt (Z.of_nat (size (queue s)) - 1))).
Proof.
  unfold __len__. unfold_M. cbn [fst snd].
  split; [done|]. split; [|split].
  - intros command Hfresh. rewrite add_new_queue.
    rewrite map_size_insert_None by done. do 2 f_equal. lia.
  - intros command Hr. rewrite add_new_queue.
    by rewrite map_size_insert_Some.
  - intros key Hr. rewrite remove_queue.
    rewrite map_size_delete_Some by done.
    assert (size (queue s) ≠ 0%nat).
    { apply map_size_non_empty_iff. intros He. rewrite He in Hr.
      by destruct Hr. }
    do 2 f_equal. lia.
Qed.

Lemma len_counts_records_witness :
  queue one_done !! next_key one_done = None ∧
  is_Some (queue one_done !! 0) ∧
  (__len__ (add_new (task "ls" "/") one_done).2).1 = Ret (VInt 2) ∧
  (__len__ (remove 0 one_done).2).1 = Ret (VInt 0).
Proof.
  assert (is_Some (queue one_done !! 0)) as Hk by (by eexists).
  destruct (len_counts_records one_done) as (_ & Hadd & _ & Hrem).
  split; [reflexivity|]. split; [exact Hk|].
  split; [exact (Hadd (task "ls" "/") eq_refl)|exact (Hrem 0 Hk)].
Defined.

(** ** [switch] and dependencies *)

(** X17. Dependencies name keys, and they move with the record. When the
    task under [second] is queued and waits for the task under [first],
    a successful [switch] of the two leaves under [first] a queued task
    that waits for itself: it is not eligible, and stays so as long as its
    own status is not [done]. *)
Theorem switch_with_dependent_blocks
    (first second : Z) (r1 r2 : record) (l : list Z) (s : State) :
  queue s !! first = Some r1 → queue s !! second = Some r2 →
  r2 !! "status" = Some (VStr "queued") →
  r2 !! "depd" = Some (VList l) → first ∈ l → l ≠ [-1] →
  (switch first second s).1 = Ret (VBool true) →
  queue (switch first second s).2 !! first = Some r2 ∧
  ¬ eligible (queue (switch first second s).2) first.
Proof.
  intros H1 H2 Hst Hd Hin Hl Hret. rewrite switch_eq in Hret |- *.
  rewrite H1, H2, Hst in Hret |- *.
  destruct (r1 !! "status") as [st1|]; [|done].
  destruct (py_in st1 allowed_states); [|done].
  cbn [py_in allowed_states existsb] in Hret |- *.
  rewrite (proj2 (py_eq_true _ _) eq_refl) in Hret |- *.
  cbn [orb] in Hret |- *.
  rewrite returning_write_queue. cbn [queue with_queue].
  rewrite lookup_insert_eq. split; [done|].
  intros (r & Hr & _ & Hdeps). rewrite lookup_insert_eq in Hr.
  injection Hr as <-. destruct Hdeps as [Hs|Hdeps].
  - rewrite Hd in Hs. injection Hs as ->. done.
  - assert (first ∈ depd_keys r2) as Hin'.
    { unfold depd_keys. by rewrite Hd. }
    specialize (Hdeps first r2 Hin' (lookup_insert_eq _ _ _)).
    congruence.
Qed.

Lemma switch_with_dependent_blocks_witness :
  queue two_tasks !! 0 = Some (entry "queued" [-1]) ∧
  queue two_tasks !! 1 = Some (entry "queued" [0]) ∧
  (switch 0 1 two_tasks).1 = Ret (VBool true) ∧
  eligible (queue two_tasks) 0 ∧
  ¬ eligible (queue (switch 0 1 two_tasks).2) 0.
Proof.
  assert ((switch 0 1 two_tasks).1 = Ret (VBool true)) as Hret.
  { vm_compute. reflexivity. }
  assert ([0] ≠ [-1]) as Hl by discriminate.
  split; [reflexivity|]. split; [reflexivity|]. split; [exact Hret|]. split.
  - exists (entry "queued" [-1]). split; [reflexivity|].
    split; [reflexivity|]. by left.
  - exact (proj2 (switch_with_dependent_blocks 0 1 (entry "queued" [-1])
                    (entry "queued" [0]) [0] two_tasks eq_refl eq_refl
                    eq_refl eq_refl (list_elem_of_here _ _) Hl Hret)).
Defined.

(** * Properties of the display *)

(** ** The width of the status table *)

(** Up to 53 bits the float division loses nothing. *)
Lemma floor_half_exact (x : Z) :
  Z.abs x < 2 ^ 53 → floor_half x = Some (x `div` 2).
Proof.
  intros Hx. unfold floor_half.
  rewrite bool_decide_eq_true_2; [done|].
  destruct (decide (Z.abs x = 0)) as [->|Hne]; [done|].
  assert (Z.log2 (Z.abs x) < 53); [|lia].
  apply Z.log2_lt_pow2; lia.
Qed.

(** Beyond, it does: the quotient of [2^53 + 3] by two is rounded up to
    an even number before the floor is taken. *)
Example floor_half_rounds :
  floor_half (2 ^ 53 + 3) = Some (2 ^ 52 + 2) ∧
  (2 ^ 53 + 3) `div` 2 = 2 ^ 52 + 1.
Proof. vm_compute. split; reflexivity. Qed.

(** X18. The status table has eight columns. When it fits the terminal
    with ten characters to spare, the widths stay as they are. Otherwise,
    as long as what the terminal has beyond the columns [Index], [Status],
    [Code], [Start] and [End] and fourteen characters of padding is below
    [2^53] in size, so that the float division is exact, only the widths
    of the columns [Command] and [Path] change: together they get twice
    the space left, half of that difference, so that the first seven
    columns and the padding fill the terminal up to at most one character.
    The eighth column, [Depd], is not counted. When the space left is at
    least one character and the two widths were positive, both stay
    positive; when there is no space left, on a terminal narrower than
    those five columns and sixteen characters, both widths come out as
    zero or less. *)
Theorem fit_columns_fills_terminal (tw w0 w1 w2 w3 w4 w5 w6 w7 : Z) :
  (w0 + w1 + w2 + w3 + w4 + w5 + w6 + w7 + 10 ≤ tw →
   fit_columns tw [w0; w1; w2; w3; w4; w5; w6; w7]
     = Some [w0; w1; w2; w3; w4; w5; w6; w7]) ∧
  (tw < w0 + w1 + w2 + w3 + w4 + w5 + w6 + w7 + 10 →
   Z.abs (tw - w0 - w1 - w2 - w5 - w6 - 14) < 2 ^ 53 →
   ∃ w3' w4',
     fit_columns tw [w0; w1; w2; w3; w4; w5; w6; w7]
       = Some [w0; w1; w2; w3'; w4'; w5; w6; w7] ∧
     w3' + w4' = 2 * ((tw - w0 - w1 - w2 - w5 - w6 - 14) `div` 2) ∧
     tw - 1 ≤ w0 + w1 + w2 + w3' + w4' + w5 + w6 + 14 ≤ tw ∧
     (1 ≤ w3 → 1 ≤ w4 → w0 + w1 + w2 + w5 + w6 + 16 ≤ tw →
      1 ≤ w3' ∧ 1 ≤ w4') ∧
     (0 ≤ w3 → 0 ≤ w4 → tw < w0 + w1 + w2 + w5 + w6 + 16 →
      w3' ≤ 0 ∧ w4' ≤ 0)).
Proof.
  unfold fit_columns, reduce_add. cbn [foldl mbind option_bind lookup].
  split.
  - intros Hfit. cbn. by rewrite bool_decide_eq_false_2 by lia.
  - intros Hwide Hsmall. cbn -[floor_half].
    rewrite bool_decide_eq_true_2 by lia.
    rewrite (floor_half_exact _ Hsmall). cbn.
    set (L := (tw - w0 - w1 - w2 - w5 - w6 - 14) `div` 2).
    assert (2 * L ≤ tw - w0 - w1 - w2 - w5 - w6 - 14 < 2 * L + 2) as HL.
    { unfold L.
      pose proof (Z.div_mod (tw - w0 - w1 - w2 - w5 - w6 - 14) 2).
      pose proof (Z.mod_pos_bound (tw - w0 - w1 - w2 - w5 - w6 - 14) 2).
      lia. }
    repeat case_bool_decide; cbn; eexists _, _; (split; [reflexivity|]);
      (split; [lia|]); (split; [lia|]); (split; intros; lia).
Qed.

Lemma fit_columns_fills_terminal_witness :
  80 < 5 + 7 + 4 + 40 + 30 + 8 + 8 + 6 + 10 ∧
  Z.abs (80 - 5 - 7 - 4 - 8 - 8 - 14) < 2 ^ 53 ∧
  5 + 7 + 4 + 8 + 8 + 16 ≤ 80 ∧
  (∃ w3' w4',
    fit_columns 80 [5; 7; 4; 40; 30; 8; 8; 6]
      = Some [5; 7; 4; w3'; w4'; 8; 8; 6] ∧
    w3' + w4' = 34 ∧ 1 ≤ w3' ∧ 1 ≤ w4') ∧
  (5 + 7 + 4 + 10 + 10 + 8 + 8 + 6 + 10 ≤ 80 →
   fit_columns 80 [5; 7; 4; 10; 10; 8; 8; 6] = Some [5; 7; 4; 10; 10; 8; 8; 6]).
Proof.
  destruct (fit_columns_fills_terminal 80 5 7 4 40 30 8 8 6) as (_ & Hadj).
  destruct (fit_columns_fills_terminal 80 5 7 4 10 10 8 8 6) as (Hfits & _).
  assert (80 < 5 + 7 + 4 + 40 + 30 + 8 + 8 + 6 + 10) as Hwide by lia.
  assert (Z.abs (80 - 5 - 7 - 4 - 8 - 8 - 14) < 2 ^ 53) as Hsmall by lia.
  assert (5 + 7 + 4 + 8 + 8 + 16 ≤ 80) as Hroom by lia.
  destruct (Hadj Hwide Hsmall) as (w3' & w4' & Heq & Hsum & _ & Hpos & _).
  split; [exact Hwide|]. split; [exact Hsmall|]. split; [exact Hroom|].
  split; [|exact Hfits].
  exists w3', w4'. split; [exact Heq|]. split; [exact Hsum|].
  apply Hpos; [lia|lia|exact Hroom].
Defined.

(** ** The process to show *)

Lemma elem_of_sorted_keys (q : store) k : k ∈ sorted_keys q ↔ is_Some (q !! k).
Proof.
  unfold sorted_keys. rewrite merge_sort_Permutation. apply elem_of_keys.
Qed.

Lemma sorted_keys_sorted (q : store) : StronglySorted Z.le (sorted_keys q).
Proof. apply StronglySorted_merge_sort; apply _. Qed.

Lemma first_running_spec (q : store) l :
  StronglySorted Z.le l →
  (∀ k, k ∈ l → ∃ r, q !! k = Some r ∧ has_status r) →
  ∃ res, first_running q l = Ret res ∧
    match res with
    | Some k => k ∈ l ∧ running q k ∧ ∀ k', k' ∈ l → running q k' → k ≤ k'
    | None => ∀ k', k' ∈ l → ¬ running q k'
    end.
Proof.
  induction l as [|x l IH]; intros Hsorted Hl.
  { exists None. split; [done|]. by intros k' ?%elem_of_nil. }
  apply StronglySorted_inv in Hsorted as [Hsorted Hx].
  rewrite Forall_forall in Hx.
  destruct (Hl x) as (r & Hr & st & Hst); [by left|].
  cbn [first_running]. rewrite (queue_getitem_Some _ _ _ Hr). cbn.
  rewrite (getitem_Some _ _ _ Hst). cbn.
  destruct (py_eq st (VStr "running")) eqn:Hrun.
  - apply py_eq_true in Hrun as ->. exists (Some x). split; [done|].
    split; [by left|]. split; [by exists r|].
    intros k' [->|Hin]%elem_of_cons _; [lia|by apply Hx].
  - apply py_eq_false in Hrun.
    destruct IH as (res & -> & Hres); [done| |].
    { intros k Hk. apply Hl. by right. }
    exists res. split; [done|].
    assert (¬ running q x) as Hnot.
    { intros (r' & Hr' & Hst'). congruence. }
    destruct res as [k|].
    + destruct Hres as (Hin & Hk & Hmin). split; [by right|]. split; [done|].
      intros k' [->|Hin']%elem_of_cons Hk'; [done|by apply Hmin].
    + intros k' [->|Hin']%elem_of_cons; [done|by apply Hres].
Qed.

(** X19. Which process [execute_show] shows. Without a key, and also with
    the key [0], which Python's [if] takes for no key, it takes the
    running task with the smallest key among those of the queue, whenever
    every record carries a status, and prints nothing; when no task is
    running it prints that and returns. With a key other than [0] it goes
    on with that key when the task is in the queue and running, and
    otherwise prints that there is no such process and returns. *)
Theorem show_selects_running (q : store) :
  show_select (Some 0) (DataDict q) = show_select None (DataDict q) ∧
  (all_have_status q →
   (∀ k, show_select None (DataDict q) = ([], Ret (Some k)) ↔
         running q k ∧ ∀ k', running q k' → k ≤ k') ∧
   (show_select None (DataDict q)
      = (["No running process, use `log` to show finished processes."],
         Ret None) ↔
    ∀ k, ¬ running q k)) ∧
  (∀ key, key ≠ 0 → has_status_at q key →
   (show_select (Some key) (DataDict q) = ([], Ret (Some key)) ↔
    running q key) ∧
   (¬ running q key →
    show_select (Some key) (DataDict q)
      = (["No running process with this key, use `log` to show finished processes."],
         Ret None))).
Proof.
  split; [done|]. split.
  - intros Hall. unfold show_select, show_oldest.
    destruct (first_running_spec q (sorted_keys q)) as (res & -> & Hres).
    { apply sorted_keys_sorted. }
    { intros k [r Hr]%elem_of_sorted_keys. exists r. split; [done|].
      by apply (Hall k). }
    assert (∀ k, running q k → k ∈ sorted_keys q) as Hdom.
    { intros k (r & Hr & _). apply elem_of_sorted_keys. by exists r. }
    destruct res as [k0|].
    + destruct Hres as (_ & Hk0 & Hmin). split.
      * intros k. split.
        -- intros [= <-]. split; [done|]. intros k' Hk'. apply Hmin; auto.
        -- intros [Hk Hle]. do 3 f_equal. apply Z.le_antisymm.
           ++ apply Hmin; auto.
           ++ by apply Hle.
      * split; [discriminate|]. intros Hnone. by destruct (Hnone k0).
    + split.
      * intros k. split; [discriminate|]. intros [Hk _].
        by destruct (Hres k (Hdom k Hk)).
      * split; [|done]. intros _ k Hk. by apply (Hres k (Hdom k Hk)).
  - intros key Hkey Hst. unfold show_select, show_given.
    rewrite bool_decide_eq_true_2 by done.
    destruct (q !! key) as [r|] eqn:Hr.
    + destruct (Hst r Hr) as [st Hs]. rewrite (getitem_Some _ _ _ Hs).
      destruct (py_eq st (VStr "running")) eqn:Hrun.
      * apply py_eq_true in Hrun as ->. split.
        -- split; [|done]. intros _. by exists r.
        -- intros Hnot. destruct Hnot. by exists r.
      * apply py_eq_false in Hrun. split; [|done].
        split; [discriminate|]. intros (r' & Hr' & Hs'). congruence.
    + split; [|done]. split; [discriminate|].
      intros (r' & Hr' & _). congruence.
Qed.

Lemma show_selects_running_witness :
  all_have_status two_running ∧ has_status_at two_running 2 ∧
  running two_running 2 ∧ ¬ running two_running 0 ∧
  show_select (Some 2) (DataDict two_running) = ([], Ret (Some 2)) ∧
  show_select (Some 0) (DataDict two_running) = ([], Ret (Some 1)).
Proof.
  assert (all_have_status two_running) as Hall.
  { apply (bool_decide_unpack _). vm_compute. reflexivity. }
  assert (running two_running 2) as Hrun.
  { exists (entry "running" [-1]). split; reflexivity. }
  assert (¬ running two_running 0) as Hnot.
  { intros (r & Hr & Hs). injection Hr as <-. vm_compute in Hs. discriminate. }
  assert (2 ≠ 0) as Hne by lia.
  destruct (show_selects_running two_running) as (Hzero & _ & Hkey).
  destruct (Hkey 2 Hne (all_have_status_at _ 2 Hall)) as [Hiff _].
  split; [exact Hall|]. split; [exact (all_have_status_at _ 2 Hall)|].
  split; [exact Hrun|]. split; [exact Hnot|].
  split; [exact (proj2 Hiff Hrun)|].
  rewrite Hzero. vm_compute. reflexivity.
Defined.

(** ** The rows of the status table *)

Example format_status_two_rows :
  format_status {[ 7 := full_entry "done" 0; 3 := full_entry "failed" (-2) ]}
  = Ret [table_header;
         [VStr "#3"; VStr "failed"; VStr "-2"; VStr "ls"; VStr "/tmp";
          VStr "12:00"; VStr "12:01"; VList [-1]];
         [VStr "#7"; VStr "done"; VStr "0"; VStr "ls"; VStr "/tmp";
          VStr "12:00"; VStr "12:01"; VList [-1]]].
Proof. vm_compute. reflexivity. Qed.

Lemma table_row_Ret key r :
  displayable r →
  ∃ row, table_row key r = Ret row ∧ length row = 8%nat ∧
         row !! 0%nat = Some (index_cell key).
Proof.
  unfold displayable, table_fields. rewrite !Forall_cons.
  intros ([? H1] & [? H2] & [? H3] & [? H4] & [? H5] & [? H6] & [? H7] & _).
  unfold table_row, getitem. rewrite H1, H2, H3, H4, H5, H6, H7. cbn.
  eexists. split; [reflexivity|]. by split.
Qed.

Lemma table_row_Ret_inv key r row : table_row key r = Ret row → displayable r.
Proof.
  unfold table_row, getitem, displayable, table_fields. intros Hrow.
  destruct (r !! "status") eqn:H1; [|done]. cbn in Hrow.
  destruct (r !! "returncode") eqn:H2; [|done]. cbn in Hrow.
  destruct (r !! "command") eqn:H3; [|done]. cbn in Hrow.
  destruct (r !! "path") eqn:H4; [|done]. cbn in Hrow.
  destruct (r !! "start") eqn:H5; [|done]. cbn in Hrow.
  destruct (r !! "end") eqn:H6; [|done]. cbn in Hrow.
  destruct (r !! "depd") eqn:H7; [|done].
  repeat (apply Forall_cons; split; [by eexists|]). apply Forall_nil_2.
Qed.

Lemma table_rows_spec its acc :
  (∀ kv, kv ∈ its → displayable kv.2) →
  ∃ rows, table_rows its acc = Ret (acc ++ rows) ∧
    length rows = length its ∧
    Forall (λ row, length row = 8%nat) rows ∧
    (λ row : list value, row !! 0%nat) <$> rows
      = (λ kv : Z * record, Some (index_cell kv.1)) <$> its.
Proof.
  revert acc. induction its as [|[k r] its IH]; intros acc Hits.
  { exists []. by rewrite app_nil_r. }
  destruct (table_row_Ret k r) as (row & Hrow & Hlen & Hidx).
  { apply (Hits (k, r)). by left. }
  destruct (IH (acc ++ [row])) as (rows & Hrows & Hl & Hall & Hcells).
  { intros kv Hkv. apply Hits. by right. }
  exists (row :: rows). cbn [table_rows]. rewrite Hrow. cbn.
  rewrite Hrows, <-app_assoc. split; [done|]. split; [by rewrite Hl|].
  split; [by apply Forall_cons|]. by rewrite Hidx, Hcells.
Qed.

Lemma table_rows_Ret_inv its acc res :
  table_rows its acc = Ret res → ∀ kv, kv ∈ its → displayable kv.2.
Proof.
  revert acc. induction its as [|[k r] its IH]; intros acc Hret kv Hkv.
  { by apply elem_of_nil in Hkv. }
  cbn [table_rows] in Hret.
  destruct (table_row k r) as [row|e] eqn:Hrow; [|done]. cbn in Hret.
  apply elem_of_cons in Hkv as [->|Hkv].
  - by apply (table_row_Ret_inv k r row).
  - by apply (IH _ Hret).
Qed.

Lemma table_row_Raise key r e : table_row key r = Raise e → e = KeyError.
Proof.
  unfold table_row, getitem. intros Hrow.
  destruct (r !! "status"); cbn in Hrow; [|congruence].
  destruct (r !! "returncode"); cbn in Hrow; [|congruence].
  destruct (r !! "command"); cbn in Hrow; [|congruence].
  destruct (r !! "path"); cbn in Hrow; [|congruence].
  destruct (r !! "start"); cbn in Hrow; [|congruence].
  destruct (r !! "end"); cbn in Hrow; [|congruence].
  destruct (r !! "depd"); cbn in Hrow; congruence.
Qed.

Lemma table_rows_Raise its acc e :
  table_rows its acc = Raise e → e = KeyError.
Proof.
  revert acc. induction its as [|[k r] its IH]; intros acc Hraise; [done|].
  cbn [table_rows] in Hraise.
  destruct (table_row k r) as [row|e'] eqn:Hrow; cbn in Hraise.
  - by apply (IH _ Hraise).
  - apply table_row_Raise in Hrow. congruence.
Qed.

Lemma elem_of_sorted_items (q : store) k r :
  (k, r) ∈ sorted_items q ↔ q !! k = Some r.
Proof.
  unfold sorted_items. rewrite merge_sort_Permutation.
  apply elem_of_map_to_list.
Qed.

Lemma sorted_items_keys (q : store) :
  (sorted_items q).*1 ≡ₚ keys q ∧ StronglySorted Z.le (sorted_items q).*1.
Proof.
  split.
  - unfold sorted_items, keys. by rewrite merge_sort_Permutation.
  - assert (StronglySorted key_le (sorted_items q)) as Hs.
    { apply StronglySorted_merge_sort; apply _. }
    induction Hs as [|kv l _ IH Hkv]; cbn; constructor; [done|].
    rewrite Forall_fmap. eapply Forall_impl; [exact Hkv|]. by intros.
Qed.

(** X20. The rows of the status table. [execute_status] can build them
    exactly when every record has the seven fields it shows; a record
    without [depd], which [next] takes for one without dependencies, makes
    it raise [KeyError]. When it builds them there is one row of eight
    cells for the header and one for each task, in the order of the keys,
    each starting with [#] and the key. *)
Theorem status_table_needs_all_fields (q : store) :
  ((∃ rows, format_status q = Ret rows) ↔
   ∀ k r, q !! k = Some r → displayable r) ∧
  (∀ k r, q !! k = Some r → r !! "depd" = None →
          format_status q = Raise KeyError) ∧
  (∀ rows, format_status q = Ret rows →
     length rows = S (size q) ∧
     Forall (λ row, length row = 8%nat) rows ∧
     ∃ ks, ks ≡ₚ keys q ∧ StronglySorted Z.le ks ∧
           (λ row : list value, row !! 0%nat) <$> rows
             = Some (VStr "Index") :: ((λ k, Some (index_cell k)) <$> ks)).
Proof.
  assert ((∃ rows, format_status q = Ret rows) ↔
          ∀ k r, q !! k = Some r → displayable r) as Hiff.
  { unfold format_status. split.
    - intros [rows Hrows] k r Hk.
      apply (table_rows_Ret_inv _ _ _ Hrows (k, r)).
      by apply elem_of_sorted_items.
    - intros Hall.
      destruct (table_rows_spec (sorted_items q) [table_header])
        as (rows & -> & _); [|by eexists].
      intros [k r] Hkr. apply (Hall k). by apply elem_of_sorted_items. }
  split; [exact Hiff|]. split.
  - intros k r Hk Hd.
    destruct (format_status q) as [rows|e] eqn:Hf;
      [|by rewrite (table_rows_Raise _ _ _ Hf)].
    exfalso. assert (displayable r) as Hdisp.
    { apply (proj1 Hiff (ex_intro _ rows eq_refl) k). exact Hk. }
    unfold displayable, table_fields in Hdisp.
    rewrite !Forall_cons in Hdisp.
    destruct Hdisp as (_ & _ & _ & _ & _ & _ & [? Hdepd] & _). congruence.
  - intros rows Hrows.
    destruct (table_rows_spec (sorted_items q) [table_header])
      as (rows' & Heq & Hlen & Hall & Hcells).
    { intros [k r] Hkr. apply (proj1 Hiff (ex_intro _ rows Hrows) k).
      by apply elem_of_sorted_items. }
    unfold format_status in Hrows. rewrite Heq in Hrows.
    injection Hrows as <-. cbn.
    split; [|split].
    + rewrite Hlen. unfold sorted_items.
      by rewrite merge_sort_Permutation, length_map_to_list.
    + by apply Forall_cons.
    + destruct (sorted_items_keys q) as [Hperm Hsorted].
      exists (sorted_items q).*1. split; [done|]. split; [done|].
      rewrite Hcells. f_equal. by rewrite <-list_fmap_compose.
Qed.

Lemma status_table_needs_all_fields_witness :
  (∀ k r, ({[ 3 := full_entry "done" 0 ]} : store) !! k = Some r →
          displayable r) ∧
  (∃ rows, format_status {[ 3 := full_entry "done" 0 ]} = Ret rows) ∧
  queue legacy !! 3 = Some {[ "command" := VStr "make"; "path" := VStr "/src";
                             "status" := VStr "queued" ]} ∧
  format_status (queue legacy) = Raise KeyError.
Proof.
  assert (∀ k r, ({[ 3 := full_entry "done" 0 ]} : store) !! k = Some r →
                 displayable r) as Hall.
  { apply (bool_decide_unpack
             (map_Forall (λ _ r, displayable r)
                ({[ 3 := full_entry "done" 0 ]} : store))).
    vm_compute. reflexivity. }
  destruct (status_table_needs_all_fields {[ 3 := full_entry "done" 0 ]})
    as (Hiff & _ & _).
  destruct (status_table_needs_all_fields (queue legacy)) as (_ & Hraise & _).
  split; [exact Hall|]. split; [exact (proj2 Hiff Hall)|].
  split; [reflexivity|]. exact (Hraise 3 _ eq_refl eq_refl).
Defined.
